(** * Token lifecycle subsystem of email-validator-grpc-mcp

    A shallow embedding of the Go package [token] (generator, token,
    manager), of the storage backends [token/storage/memory] and
    [token/storage/redis], and of the earlier backends [MemoryStorage] and
    [RedisStorage] of package [token], with the properties of the
    generator, the backends and the manager.

    Conventions of the embedding.
    - A Go [string] is a sequence of bytes; it is a Rocq [string], whose
      characters are the 8-bit [ascii] values.  [len] and indexing are
      byte-wise, as in Go.
    - A Go [int] is a [Z]; the code performs no arithmetic on the integers
      modelled here except the remainder in [GenerateCodeToken].  The Go
      type [token.Type] is [TokenType].
    - [time.Time] is the number of nanoseconds since the zero instant
      (January 1, year 1, 00:00 UTC), as a [Z]; [time.Duration] is a [Z]
      number of nanoseconds, and [Sub] saturates as in Go.  Every call of
      [time.Now()] is an explicit argument [now] of the function that makes
      it.
    - A function that returns [error] returns [option error] ([None] is
      [nil]); a returned token with its error is a [result]; a function
      that can panic returns a [result] too.  [fmt.Errorf] with [%w] is [Wrap]; formatted
      values are left out of the messages.
    - A [*Token] is the token it points to ([None] for nil): no code of
      the repository writes through a stored pointer.
    - The logger has no effect on results and is left out; the mutex is
      left out because operations are run one at a time.
    - [encoding/json] and the Redis server are outside the repository:
      the first is an interface with the round-trip law, the second a
      model of the commands that the storage issues. *)

From Stdlib Require Import ZArith List String Ascii Lia.
From Stdlib.Strings Require Import Byte.
From stdpp Require Import gmap strings list fin_maps pretty.

Local Open Scope string_scope.
Local Open Scope Z_scope.

(** ** Package [time] *)

Module time.

Definition Time := Z.
Definition Duration := Z.

Definition Nanosecond : Duration := 1.
Definition Millisecond : Duration := 1000000.
Definition Second : Duration := 1000000000.
Definition Minute : Duration := 60 * Second.
Definition Hour : Duration := 60 * Minute.

Definition minDuration : Duration := - 2 ^ 63.
Definition maxDuration : Duration := 2 ^ 63 - 1.

Definition IsZero (t : Time) : bool := t =? 0.
Definition After (t u : Time) : bool := u <? t.
Definition Before (t u : Time) : bool := t <? u.
Definition Add (t : Time) (d : Duration) : Time := t + d.

(** [t.Sub(u)] saturates at the bounds of [Duration]. *)
Definition Sub (t u : Time) : Duration :=
  Z.max minDuration (Z.min maxDuration (t - u)).

(** [time.Until(t)] is [t.Sub(time.Now())]. *)
Definition Until (now t : Time) : Duration := Sub t now.

End time.

(** ** Errors and results *)

Definition TokenType := Z.

Inductive error : Type :=
| ErrTokenNotFound
| ErrInvalidToken
| ErrInvalidTokenType
| ErrInvalidTokenKeyType
| ErrTokenNil
| ErrEmptyTokenValue
| ErrEmptyValidationID
| TokenExpiredError (TokenValue : string) (TokenTyp : TokenType) (ExpiredAt : time.Time)
| ErrContextCanceled
| ErrDeadlineExceeded
| ErrRandom
| ErrRedisNil
| ErrRedisWrongType
| ErrJSON
| Errorf (msg : string)
| Wrap (msg : string) (cause : error).

#[global] Instance error_eq_dec : EqDecision error.
Proof. solve_decision. Defined.

(** [errors.Is(err, target)] for the comparable errors above: the chain of
    [%w] wrappers is searched for [target]. *)
Fixpoint errors_Is (err target : error) : bool :=
  if decide (err = target) then true
  else match err with
       | Wrap _ cause => errors_Is cause target
       | _ => false
       end.

(** [IsTokenExpiredError] is [errors.As] with a [*TokenExpiredError] target. *)
Fixpoint IsTokenExpiredError (err : error) : bool :=
  match err with
  | TokenExpiredError _ _ _ => true
  | Wrap _ cause => IsTokenExpiredError cause
  | _ => false
  end.

Inductive panic : Type :=
| PanicMakeSliceLen
| PanicDivideByZero
| PanicIndexOutOfRange.

Inductive result (A : Type) : Type :=
| Ok (a : A)
| Err (e : error)
| Panic (p : panic).
Arguments Ok {A} a.
Arguments Err {A} e.
Arguments Panic {A} p.

(** [ctx.Err()] *)
Inductive Context : Type := Background | Canceled | DeadlineExceeded.

Definition ctx_Err (ctx : Context) : option error :=
  match ctx with
  | Background => None
  | Canceled => Some ErrContextCanceled
  | DeadlineExceeded => Some ErrDeadlineExceeded
  end.

(** ** The entropy source [crypto/rand]

    A source either fails or delivers bytes; [rand_Read src n] is the
    outcome of [rand.Read] on a slice of [n] bytes. *)

Inductive Source : Type :=
| SrcFail
| SrcBytes (stream : nat -> byte).

Definition rand_Read (src : Source) (n : nat) : option (list byte) :=
  match src with
  | SrcFail => None
  | SrcBytes f => Some (map f (seq 0 n))
  end.

(** ** Package [token]: generator *)

Module token.

Definition TypeLink : TokenType := 0.
Definition TypeCode : TokenType := 1.

Definition DefaultLinkTokenLength : Z := 32.
Definition DefaultCodeTokenLength : Z := 4.
Definition DefaultCodeCharset : string := "0123456789".

Record Generator : Type := {
  linkTokenLength : Z;
  codeTokenLength : Z;
  codeCharset : string
}.

Definition NewGenerator : Generator :=
  {| linkTokenLength := DefaultLinkTokenLength;
     codeTokenLength := DefaultCodeTokenLength;
     codeCharset := DefaultCodeCharset |}.

Definition WithLinkTokenLength (g : Generator) (length : Z) : Generator :=
  {| linkTokenLength := length;
     codeTokenLength := codeTokenLength g;
     codeCharset := codeCharset g |}.

Definition WithCodeTokenLength (g : Generator) (length : Z) : Generator :=
  {| linkTokenLength := linkTokenLength g;
     codeTokenLength := length;
     codeCharset := codeCharset g |}.

Definition WithCodeCharset (g : Generator) (charset : string) : Generator :=
  if decide (charset <> "")
  then {| linkTokenLength := linkTokenLength g;
          codeTokenLength := codeTokenLength g;
          codeCharset := charset |}
  else g.

(** [base64.RawURLEncoding.EncodeToString]: three bytes give four
    characters of the URL-safe alphabet; a remainder of one or two bytes
    gives two or three characters, without padding. *)
Definition encodeURL : string :=
  "ABCDEFGHIJKLMNOPQRSTUVWXYZabcdefghijklmnopqrstuvwxyz0123456789-_".

Definition b64char (v : N) : ascii :=
  match String.get (N.to_nat (N.land v 63)) encodeURL with
  | Some c => c
  | None => "A"%char
  end.

Fixpoint EncodeToString (src : list byte) : string :=
  match src with
  | [] => ""
  | [b0] =>
      let v := N.shiftl (Byte.to_N b0) 16 in
      String (b64char (N.shiftr v 18)) (String (b64char (N.shiftr v 12)) "")
  | [b0; b1] =>
      let v := N.lor (N.shiftl (Byte.to_N b0) 16) (N.shiftl (Byte.to_N b1) 8) in
      String (b64char (N.shiftr v 18)) (String (b64char (N.shiftr v 12))
        (String (b64char (N.shiftr v 6)) ""))
  | b0 :: b1 :: b2 :: rest =>
      let v := N.lor (N.lor (N.shiftl (Byte.to_N b0) 16) (N.shiftl (Byte.to_N b1) 8))
                     (Byte.to_N b2) in
      String (b64char (N.shiftr v 18)) (String (b64char (N.shiftr v 12))
        (String (b64char (N.shiftr v 6)) (String (b64char v) (EncodeToString rest))))
  end.

Definition GenerateLinkToken (g : Generator) (src : Source) : result string :=
  if linkTokenLength g <? 0 then Panic PanicMakeSliceLen
  else
    match rand_Read src (Z.to_nat (linkTokenLength g)) with
    | None => Err (Wrap "failed to generate random bytes" ErrRandom)
    | Some bytes => Ok (EncodeToString bytes)
    end.

(** The loop [for i, b := range bytes { code[i] = charset[int(b) % n] }];
    the remainder panics when [n] is zero and the index panics when it is
    out of range. *)
Fixpoint mapCode (charset : string) (charsetLength : nat) (bytes : list byte)
  : result string :=
  match bytes with
  | [] => Ok ""
  | b :: rest =>
      match charsetLength with
      | O => Panic PanicDivideByZero
      | _ =>
          match String.get (N.to_nat (Byte.to_N b) mod charsetLength) charset with
          | None => Panic PanicIndexOutOfRange
          | Some c =>
              match mapCode charset charsetLength rest with
              | Ok code => Ok (String c code)
              | Err e => Err e
              | Panic p => Panic p
              end
          end
      end
  end.

Definition GenerateCodeToken (g : Generator) (src : Source) : result string :=
  if codeTokenLength g <? 0 then Panic PanicMakeSliceLen
  else
    let charsetLength := String.length (codeCharset g) in
    match rand_Read src (Z.to_nat (codeTokenLength g)) with
    | None => Err (Wrap "failed to generate random bytes" ErrRandom)
    | Some bytes => mapCode (codeCharset g) charsetLength bytes
    end.

(** A configuration step of the builder-style API, and a generator
    obtained from [NewGenerator] by a sequence of such steps. *)
Inductive GenOption : Type :=
| OptLinkTokenLength (length : Z)
| OptCodeTokenLength (length : Z)
| OptCodeCharset (charset : string).

Definition applyGenOption (g : Generator) (o : GenOption) : Generator :=
  match o with
  | OptLinkTokenLength n => WithLinkTokenLength g n
  | OptCodeTokenLength n => WithCodeTokenLength g n
  | OptCodeCharset c => WithCodeCharset g c
  end.

Definition configure (opts : list GenOption) : Generator :=
  fold_left applyGenOption opts NewGenerator.

(** *** Tokens *)

Record Token : Type := {
  Value : string;
  Typ : TokenType;
  CreatedAt : time.Time;
  ValidUntil : time.Time;
  ValidationID : string
}.

#[global] Instance Token_eq_dec : EqDecision Token.
Proof. solve_decision. Defined.

(** [New] reads the clock once. *)
Definition New (value : string) (tokenType : TokenType) (validationID : string)
    (ttl : time.Duration) (now : time.Time) : Token :=
  {| Value := value;
     Typ := tokenType;
     CreatedAt := now;
     ValidUntil := time.Add now ttl;
     ValidationID := validationID |}.

Definition IsExpired (t : Token) (now : time.Time) : bool :=
  time.After now (ValidUntil t).

(** [Validate] of token.go; a [*Token] argument is an [option Token],
    [None] being the nil pointer. *)
Definition Validate (token : option Token) : option error :=
  match token with
  | None => Some ErrTokenNil
  | Some t =>
      if decide (Value t = "") then Some ErrEmptyTokenValue
      else if decide (ValidationID t = "") then Some ErrEmptyValidationID
      else if time.IsZero (ValidUntil t)
           then Some (Wrap "missing expiration time" ErrInvalidToken)
           else None
  end.

(** [validateToken] of storage.go, used by [MemoryStorage] and
    [RedisStorage]: it has no check of the expiration time. *)
Definition validateToken (token : option Token) : option error :=
  match token with
  | None => Some ErrTokenNil
  | Some t =>
      if decide (Value t = "") then Some ErrEmptyTokenValue
      else if decide (ValidationID t = "") then Some ErrEmptyValidationID
      else None
  end.

(** The method [ValidateToken] of [Token]: the checks of [Validate], each
    failure a new error value made by [errors.New] or by [fmt.Errorf]
    without [%w]. *)
Definition ValidateToken (token : option Token) : option error :=
  match token with
  | None => Some (Errorf "token cannot be nil")
  | Some t =>
      if decide (Value t = "") then Some (Errorf "token value cannot be empty")
      else if decide (ValidationID t = "") then Some (Errorf "validation ID cannot be empty")
      else if time.IsZero (ValidUntil t)
           then Some (Errorf "invalid token: missing expiration time")
           else None
  end.

(** *** The storage interface

    Every method takes the context and the reading [now] of the clock
    during the call, and threads the state of the backend. *)
Class Storage (S : Type) : Type := {
  Store : Context -> time.Time -> option Token -> S -> S * option error;
  Retrieve : Context -> time.Time -> string -> TokenType -> S -> S * result Token;
  Delete : Context -> time.Time -> string -> TokenType -> S -> S * option error;
  DeleteByValidationID : Context -> time.Time -> string -> S -> S * option error
}.

(** *** The manager (manager.go)

    The [storage] field holds the state of the backend; an operation
    returns the manager with the state after the call. *)

Record Manager (S : Type) : Type := {
  generator : Generator;
  storage : S;
  linkTokenTTL : time.Duration;
  codeTokenTTL : time.Duration
}.
Arguments generator {S} m.
Arguments storage {S} m.
Arguments linkTokenTTL {S} m.
Arguments codeTokenTTL {S} m.

Inductive ManagerOption (S : Type) : Type :=
| WithStorage (s : S)
| WithManagerLogger
| WithLinkTokenTTL (ttl : time.Duration)
| WithCodeTokenTTL (ttl : time.Duration)
| WithGenerator (g : Generator).
Arguments WithStorage {S} s.
Arguments WithManagerLogger {S}.
Arguments WithLinkTokenTTL {S} ttl.
Arguments WithCodeTokenTTL {S} ttl.
Arguments WithGenerator {S} g.

Definition applyOption {S} (m : Manager S) (opt : ManagerOption S) : Manager S :=
  match opt with
  | WithStorage s =>
      {| generator := generator m; storage := s;
         linkTokenTTL := linkTokenTTL m; codeTokenTTL := codeTokenTTL m |}
  | WithManagerLogger => m
  | WithLinkTokenTTL ttl =>
      {| generator := generator m; storage := storage m;
         linkTokenTTL := ttl; codeTokenTTL := codeTokenTTL m |}
  | WithCodeTokenTTL ttl =>
      {| generator := generator m; storage := storage m;
         linkTokenTTL := linkTokenTTL m; codeTokenTTL := ttl |}
  | WithGenerator g =>
      {| generator := g; storage := storage m;
         linkTokenTTL := linkTokenTTL m; codeTokenTTL := codeTokenTTL m |}
  end.

Definition NewManager {S} (storage0 : S) (opts : list (ManagerOption S)) : Manager S :=
  fold_left applyOption opts
    {| generator := NewGenerator;
       storage := storage0;
       linkTokenTTL := 24 * time.Hour;
       codeTokenTTL := 10 * time.Minute |}.

Definition withStorage {S} (m : Manager S) (s : S) : Manager S :=
  {| generator := generator m; storage := s;
     linkTokenTTL := linkTokenTTL m; codeTokenTTL := codeTokenTTL m |}.

(** [createToken]: [now] is the clock reading of [token.New], [now']
    the one of the storage backend during [Store]. *)
Definition createToken {S} `{Storage S} (m : Manager S) (ctx : Context)
    (src : Source) (now now' : time.Time)
    (tokenType : TokenType) (validationID : string) (ttl : time.Duration)
  : Manager S * result Token :=
  match ctx_Err ctx with
  | Some err => (m, Err (Wrap "context error" err))
  | None =>
      if decide (validationID = "") then (m, Err ErrEmptyValidationID)
      else if ttl <=? 0 then (m, Err (Errorf "invalid TTL: must be positive duration"))
      else
        let finish (generated : result string) : Manager S * result Token :=
          match generated with
          | Panic p => (m, Panic p)
          | Err e => (m, Err (Wrap "failed to generate token" e))
          | Ok tokenValue =>
              let token := New tokenValue tokenType validationID ttl now in
              match Store ctx now' (Some token) (storage m) with
              | (s', Some err) =>
                  (withStorage m s', Err (Wrap "failed to store token" err))
              | (s', None) => (withStorage m s', Ok token)
              end
          end in
        if tokenType =? TypeLink then finish (GenerateLinkToken (generator m) src)
        else if tokenType =? TypeCode then finish (GenerateCodeToken (generator m) src)
        else (m, Err (Errorf "unsupported token type"))
  end.

Definition CreateLinkToken {S} `{Storage S} (m : Manager S) (ctx : Context)
    (src : Source) (now now' : time.Time) (validationID : string) :=
  createToken m ctx src now now' TypeLink validationID (linkTokenTTL m).

Definition CreateCodeToken {S} `{Storage S} (m : Manager S) (ctx : Context)
    (src : Source) (now now' : time.Time) (validationID : string) :=
  createToken m ctx src now now' TypeCode validationID (codeTokenTTL m).

Definition CreateTokenWithTTL {S} `{Storage S} (m : Manager S) (ctx : Context)
    (src : Source) (now now' : time.Time) (tokenType : TokenType)
    (validationID : string) (ttl : time.Duration) :=
  createToken m ctx src now now' tokenType validationID ttl.

(** [VerifyToken]: [now] is the clock reading of the storage backend
    during [Retrieve], [now'] the later one of the manager's own
    [IsExpired] check. *)
Definition VerifyToken {S} `{Storage S} (m : Manager S) (ctx : Context)
    (now now' : time.Time) (tokenValue : string) (tokenType : TokenType)
  : Manager S * result Token :=
  match ctx_Err ctx with
  | Some err => (m, Err (Wrap "context error" err))
  | None =>
      if decide (tokenValue = "") then (m, Err ErrEmptyTokenValue)
      else
        match Retrieve ctx now tokenValue tokenType (storage m) with
        | (s', Err err) =>
            (withStorage m s', Err (Wrap "failed to retrieve token from storage" err))
        | (s', Panic p) => (withStorage m s', Panic p)
        | (s', Ok token) =>
            if negb (Typ token =? tokenType)
            then (withStorage m s', Err (Errorf "token type mismatch"))
            else if IsExpired token now'
                 then (withStorage m s',
                       Err (TokenExpiredError tokenValue tokenType (ValidUntil token)))
                 else (withStorage m s', Ok token)
        end
  end.

Definition InvalidateToken {S} `{Storage S} (m : Manager S) (ctx : Context)
    (now : time.Time) (tokenValue : string) (tokenType : TokenType)
  : Manager S * option error :=
  match ctx_Err ctx with
  | Some err => (m, Some (Wrap "context error" err))
  | None =>
      if decide (tokenValue = "") then (m, Some ErrEmptyTokenValue)
      else
        match Delete ctx now tokenValue tokenType (storage m) with
        | (s', Some err) => (withStorage m s', Some (Wrap "failed to invalidate token" err))
        | (s', None) => (withStorage m s', None)
        end
  end.

Definition InvalidateValidation {S} `{Storage S} (m : Manager S) (ctx : Context)
    (now : time.Time) (validationID : string) : Manager S * option error :=
  match ctx_Err ctx with
  | Some err => (m, Some (Wrap "context error" err))
  | None =>
      if decide (validationID = "") then (m, Some ErrEmptyValidationID)
      else
        match DeleteByValidationID ctx now validationID (storage m) with
        | (s', Some err) =>
            (withStorage m s', Some (Wrap "failed to invalidate validation tokens" err))
        | (s', None) => (withStorage m s', None)
        end
  end.

(** [GetTokenInfo] reads the clock once more for its log line, with no
    effect on the result. *)
Definition GetTokenInfo {S} `{Storage S} (m : Manager S) (ctx : Context)
    (now : time.Time) (tokenValue : string) (tokenType : TokenType)
  : Manager S * result Token :=
  match ctx_Err ctx with
  | Some err => (m, Err (Wrap "context error" err))
  | None =>
      if decide (tokenValue = "") then (m, Err ErrEmptyTokenValue)
      else
        match Retrieve ctx now tokenValue tokenType (storage m) with
        | (s', Err err) =>
            (withStorage m s', Err (Wrap "failed to retrieve token info from storage" err))
        | (s', Panic p) => (withStorage m s', Panic p)
        | (s', Ok token) => (withStorage m s', Ok token)
        end
  end.

End token.

(** ** The composite key of the in-memory storages

    Packages [memory] and [token] declare the same struct [tokenKey]. *)

Record tokenKey : Type := TokenKey { value : string; typ : TokenType }.

#[global] Instance tokenKey_eq_dec : EqDecision tokenKey.
Proof. solve_decision. Defined.

#[global] Instance tokenKey_countable : Countable tokenKey :=
  inj_countable' (fun k => (value k, typ k)) (fun p => TokenKey (fst p) (snd p))
    (fun k => match k with TokenKey _ _ => eq_refl end).

(** ** Package [token/storage/memory] (memory.go)

    The two [sync.Map]s hold values of one type each, so the type
    assertions of the source never fail and their error branches
    ([ErrInvalidTokenType], [ErrInvalidTokenKeyType]) are omitted. *)

Module memory.

Record Storage : Type := {
  tokens : gmap tokenKey token.Token;
  validationID : gmap string (list tokenKey)
}.

Definition New : Storage := {| tokens := ∅; validationID := ∅ |}.

Definition Store (ctx : Context) (t : option token.Token) (s : Storage)
  : Storage * option error :=
  match ctx_Err ctx with
  | Some err => (s, Some (Wrap "context error" err))
  | None =>
      match token.Validate t, t with
      | Some err, _ => (s, Some (Wrap "token validation failed" err))
      | None, None => (s, Some (Wrap "token validation failed" ErrTokenNil))
      | None, Some t =>
          let key : tokenKey := TokenKey (token.Value t) (token.Typ t) in
          let tokens' := <[key := t]> (tokens s) in
          let keys : list tokenKey := default [] (validationID s !! token.ValidationID t) in
          ({| tokens := tokens';
              validationID := <[token.ValidationID t := (keys ++ [key])%list]> (validationID s) |},
           None)
      end
  end.

Definition Retrieve (ctx : Context) (now : time.Time) (tokenValue : string)
    (tokenType : TokenType) (s : Storage) : Storage * result token.Token :=
  match ctx_Err ctx with
  | Some err => (s, Err (Wrap "context error" err))
  | None =>
      let key : tokenKey := TokenKey tokenValue tokenType in
      match tokens s !! key with
      | None => (s, Err ErrTokenNotFound)
      | Some t =>
          if token.IsExpired t now
          then
            (* the literal sets TokenValue and ExpiredAt only: TokenType
               keeps the zero value of its type *)
            ({| tokens := delete key (tokens s); validationID := validationID s |},
             Err (TokenExpiredError tokenValue 0 (token.ValidUntil t)))
          else (s, Ok t)
      end
  end.

(** The filter of [Delete]: keep [k] when
    [k.value != key.value || k.typ != key.typ]. *)
Definition keepKey (key k : tokenKey) : bool :=
  negb (String.eqb (value k) (value key)) || negb (Z.eqb (typ k) (typ key)).

Definition Delete (ctx : Context) (tokenValue : string) (tokenType : TokenType)
    (s : Storage) : Storage * option error :=
  match ctx_Err ctx with
  | Some err => (s, Some (Wrap "context error" err))
  | None =>
      let key : tokenKey := TokenKey tokenValue tokenType in
      match tokens s !! key with
      | None => (s, None)
      | Some t =>
          let tokens' := delete key (tokens s) in
          let validationID0 := token.ValidationID t in
          match validationID s !! validationID0 with
          | None => ({| tokens := tokens'; validationID := validationID s |}, None)
          | Some keys =>
              let newKeys := List.filter (keepKey key) keys in
              if (0 <? Z.of_nat (length newKeys))
              then ({| tokens := tokens';
                       validationID := <[validationID0 := newKeys]> (validationID s) |}, None)
              else ({| tokens := tokens';
                       validationID := delete validationID0 (validationID s) |}, None)
          end
      end
  end.

Definition DeleteByValidationID (ctx : Context) (validationID0 : string)
    (s : Storage) : Storage * option error :=
  match ctx_Err ctx with
  | Some err => (s, Some (Wrap "context error" err))
  | None =>
      if decide (validationID0 = "") then (s, Some ErrEmptyValidationID)
      else
        match validationID s !! validationID0 with
        | None => (s, None)
        | Some keys =>
            ({| tokens := fold_left (fun m key => delete key m) keys (tokens s);
                validationID := delete validationID0 (validationID s) |}, None)
        end
  end.

#[global] Instance memory_Storage : token.Storage Storage := {|
  token.Store ctx _ t s := Store ctx t s;
  token.Retrieve ctx now v ty s := Retrieve ctx now v ty s;
  token.Delete ctx _ v ty s := Delete ctx v ty s;
  token.DeleteByValidationID ctx _ o s := DeleteByValidationID ctx o s
|}.

End memory.

(** ** [MemoryStorage] of package [token] (storage.go) *)

Module MemoryStorage.

Record MemoryStorage : Type := {
  tokens : gmap tokenKey token.Token;
  validationID : gmap string (list tokenKey)
}.

Definition NewMemoryStorage : MemoryStorage := {| tokens := ∅; validationID := ∅ |}.

Definition Store (ctx : Context) (t : option token.Token) (s : MemoryStorage)
  : MemoryStorage * option error :=
  match ctx_Err ctx with
  | Some err => (s, Some (Wrap "context error" err))
  | None =>
      match token.validateToken t, t with
      | Some err, _ => (s, Some err)
      | None, None => (s, Some ErrTokenNil)
      | None, Some t =>
          let key : tokenKey := TokenKey (token.Value t) (token.Typ t) in
          let tokens' := <[key := t]> (tokens s) in
          let keys : list tokenKey := default [] (validationID s !! token.ValidationID t) in
          ({| tokens := tokens';
              validationID := <[token.ValidationID t := (keys ++ [key])%list]> (validationID s) |},
           None)
      end
  end.

Definition Retrieve (ctx : Context) (now : time.Time) (tokenValue : string)
    (tokenType : TokenType) (s : MemoryStorage) : MemoryStorage * result token.Token :=
  match ctx_Err ctx with
  | Some err => (s, Err (Wrap "context error" err))
  | None =>
      let key : tokenKey := TokenKey tokenValue tokenType in
      match tokens s !! key with
      | None => (s, Err ErrTokenNotFound)
      | Some t =>
          if token.IsExpired t now
          then ({| tokens := delete key (tokens s); validationID := validationID s |},
                Err (TokenExpiredError (token.Value t) (token.Typ t) (token.ValidUntil t)))
          else (s, Ok t)
      end
  end.

Definition keepKey (tokenValue : string) (tokenType : TokenType) (k : tokenKey) : bool :=
  negb (String.eqb (value k) tokenValue) || negb (Z.eqb (typ k) tokenType).

Definition Delete (ctx : Context) (tokenValue : string) (tokenType : TokenType)
    (s : MemoryStorage) : MemoryStorage * option error :=
  match ctx_Err ctx with
  | Some err => (s, Some (Wrap "context error" err))
  | None =>
      let key : tokenKey := TokenKey tokenValue tokenType in
      match tokens s !! key with
      | None => (s, None)
      | Some t =>
          let tokens' := delete key (tokens s) in
          match validationID s !! token.ValidationID t with
          | Some keys =>
              let newKeys := List.filter (keepKey tokenValue tokenType) keys in
              if (0 <? Z.of_nat (length newKeys))
              then ({| tokens := tokens';
                       validationID := <[token.ValidationID t := newKeys]> (validationID s) |},
                    None)
              else ({| tokens := tokens';
                       validationID := delete (token.ValidationID t) (validationID s) |},
                    None)
          | None => ({| tokens := tokens'; validationID := validationID s |}, None)
          end
      end
  end.

Definition DeleteByValidationID (ctx : Context) (validationID0 : string)
    (s : MemoryStorage) : MemoryStorage * option error :=
  match ctx_Err ctx with
  | Some err => (s, Some (Wrap "context error" err))
  | None =>
      match validationID s !! validationID0 with
      | None => (s, None)
      | Some keys =>
          ({| tokens := fold_left (fun m key => delete key m) keys (tokens s);
              validationID := delete validationID0 (validationID s) |}, None)
      end
  end.

End MemoryStorage.

(** ** [encoding/json] on tokens

    [json.Marshal] and [json.Unmarshal] are taken as an interface: a
    marshalled token unmarshals to itself; [Marshal] may fail (a time whose
    year is outside 0..9999) and [Unmarshal] may fail on other data. *)

Class JSON : Type := {
  Data : Type;
  json_Marshal : token.Token -> option Data;
  json_Unmarshal : Data -> option token.Token;
  json_roundtrip : forall t d, json_Marshal t = Some d -> json_Unmarshal d = Some t
}.

(** ** The Redis server behind the go-redis client

    The external server is modelled by the commands the storage issues.
    - The keyspace maps a key to a string value or a set, with an optional
      expiry in milliseconds; a key whose expiry has passed is absent for
      every command.  The server reads the same clock as the client, in
      milliseconds.
    - [Set] with a positive expiration sends PX or EX as go-redis does
      (sub-second precision when needed, at least one unit); a zero
      expiration stores the key without expiry.
    - [ExpireAt] sends the instant in whole seconds; an instant that is not
      in the future deletes the key.
    - A set that becomes empty is removed.
    - A command on a key of the wrong type fails; transport failures are
      not modelled. *)

Module goredis.

Section Server.
Context {codec : JSON}.

Inductive value : Type :=
| VString (data : Data)
| VSet (members : gset string).

Record entry : Type := Entry { val : value; expireAt : option Z }.

Definition DB : Type := gmap string entry.

Definition clock (now : time.Time) : Z := now / time.Millisecond.

Definition expired (e : entry) (now : time.Time) : bool :=
  match expireAt e with
  | Some w => w <? clock now
  | None => false
  end.

Definition live (db : gmap string entry) (now : time.Time) (key : string)
  : option entry :=
  match db !! key with
  | Some e => if expired e now then None else Some e
  | None => None
  end.

(** [usePrecise], [formatMs] and [formatSec] of go-redis; Go's [/] and [%]
    truncate toward zero. *)
Definition usePrecise (dur : time.Duration) : bool :=
  (dur <? time.Second) || negb (Z.rem dur time.Second =? 0).

Definition formatMs (dur : time.Duration) : Z :=
  if (0 <? dur) && (dur <? time.Millisecond) then 1
  else Z.quot dur time.Millisecond.

Definition formatSec (dur : time.Duration) : Z :=
  if (0 <? dur) && (dur <? time.Second) then 1
  else Z.quot dur time.Second.

Definition Get (db : gmap string entry) (now : time.Time) (key : string)
  : Data + error :=
  match live db now key with
  | None => inr ErrRedisNil
  | Some (Entry (VString d) _) => inl d
  | Some (Entry (VSet _) _) => inr ErrRedisWrongType
  end.

Definition Set_ (db : gmap string entry) (now : time.Time) (key : string)
    (data : Data) (expiration : time.Duration) : gmap string entry * option error :=
  let exp :=
    if 0 <? expiration
    then Some (clock now +
               (if usePrecise expiration then formatMs expiration
                else 1000 * formatSec expiration))
    else None in
  (<[key := Entry (VString data) exp]> db, None).

Definition Del (db : gmap string entry) (key : string) : gmap string entry :=
  delete key db.

Definition SAdd (db : gmap string entry) (now : time.Time) (key member : string)
  : gmap string entry * option error :=
  match live db now key with
  | None => (<[key := Entry (VSet {[member]}) None]> db, None)
  | Some (Entry (VSet members) exp) =>
      (<[key := Entry (VSet (members ∪ {[member]})) exp]> db, None)
  | Some (Entry (VString _) _) => (db, Some ErrRedisWrongType)
  end.

Definition SRem (db : gmap string entry) (now : time.Time) (key member : string)
  : gmap string entry * option error :=
  match live db now key with
  | None => (db, None)
  | Some (Entry (VSet members) exp) =>
      let members' := members ∖ {[member]} in
      if decide (members' = ∅) then (delete key db, None)
      else (<[key := Entry (VSet members') exp]> db, None)
  | Some (Entry (VString _) _) => (db, Some ErrRedisWrongType)
  end.

Definition SMembers (db : gmap string entry) (now : time.Time) (key : string)
  : list string + error :=
  match live db now key with
  | None => inl []
  | Some (Entry (VSet members) _) => inl (elements members)
  | Some (Entry (VString _) _) => inr ErrRedisWrongType
  end.

Definition ExpireAt (db : gmap string entry) (now : time.Time) (key : string)
    (tm : time.Time) : gmap string entry * option error :=
  match live db now key with
  | None => (db, None)
  | Some (Entry v _) =>
      let when := (tm / time.Second) * 1000 in
      if when <=? clock now then (delete key db, None)
      else (<[key := Entry v (Some when)]> db, None)
  end.

(** [Expire] sends the duration in whole seconds (at least one). *)
Definition Expire (db : gmap string entry) (now : time.Time) (key : string)
    (expiration : time.Duration) : gmap string entry * option error :=
  match live db now key with
  | None => (db, None)
  | Some (Entry v _) =>
      let when := clock now + 1000 * formatSec expiration in
      if when <=? clock now then (delete key db, None)
      else (<[key := Entry v (Some when)]> db, None)
  end.

(** A pipeline of [Del] commands. *)
Definition DelAll (db : gmap string entry) (keys : list string) : gmap string entry :=
  fold_left Del keys db.

End Server.

End goredis.

(** ** Package [token/storage/redis] (redis.go) *)

Module redis.

Section Storage.
Context {codec : JSON}.

(** [fmt.Sprintf("token:%s:%d", value, type)] *)
Definition tokenKeyOf (tokenValue : string) (tokenType : TokenType) : string :=
  "token:" +:+ tokenValue +:+ ":" +:+ pretty tokenType.

(** [fmt.Sprintf("validation:%s", validationID)] *)
Definition validationKeyOf (validationID : string) : string :=
  "validation:" +:+ validationID.

Definition Store (ctx : Context) (now : time.Time) (t : option token.Token)
    (db : gmap string goredis.entry) : gmap string goredis.entry * option error :=
  match ctx_Err ctx with
  | Some err => (db, Some (Wrap "context error" err))
  | None =>
      match token.Validate t, t with
      | Some err, _ => (db, Some (Wrap "token validation failed" err))
      | None, None => (db, Some (Wrap "token validation failed" ErrTokenNil))
      | None, Some t =>
          match json_Marshal t with
          | None => (db, Some (Wrap "failed to marshal token" ErrJSON))
          | Some data =>
              if time.Before (token.ValidUntil t) now then (db, Some ErrInvalidToken)
              else
                let ttl := time.Sub (token.ValidUntil t) now in
                let key := tokenKeyOf (token.Value t) (token.Typ t) in
                match goredis.Set_ db now key data ttl with
                | (db1, Some err) =>
                    (db1, Some (Wrap "failed to store token in Redis" err))
                | (db1, None) =>
                    let validationKey := validationKeyOf (token.ValidationID t) in
                    match goredis.SAdd db1 now validationKey key with
                    | (db2, Some err) =>
                        (db2, Some (Wrap "failed to store validation ID index" err))
                    | (db2, None) =>
                        match goredis.ExpireAt db2 now validationKey (token.ValidUntil t) with
                        | (db3, Some err) =>
                            (db3, Some (Wrap "failed to set expiration on validation ID index" err))
                        | (db3, None) => (db3, None)
                        end
                    end
                end
          end
      end
  end.

Definition Retrieve (ctx : Context) (now : time.Time) (tokenValue : string)
    (tokenType : TokenType) (db : gmap string goredis.entry)
  : gmap string goredis.entry * result token.Token :=
  match ctx_Err ctx with
  | Some err => (db, Err (Wrap "context error" err))
  | None =>
      let key := tokenKeyOf tokenValue tokenType in
      match goredis.Get db now key with
      | inr err =>
          if decide (err = ErrRedisNil) then (db, Err ErrTokenNotFound)
          else (db, Err (Wrap "failed to retrieve token from Redis" err))
      | inl data =>
          match json_Unmarshal data with
          | None => (db, Err (Wrap "failed to unmarshal token" ErrJSON))
          | Some t =>
              if token.IsExpired t now
              then (goredis.Del db key,
                    Err (TokenExpiredError tokenValue tokenType (token.ValidUntil t)))
              else (db, Ok t)
          end
      end
  end.

Definition Delete (ctx : Context) (now : time.Time) (tokenValue : string)
    (tokenType : TokenType) (db : gmap string goredis.entry)
  : gmap string goredis.entry * option error :=
  match ctx_Err ctx with
  | Some err => (db, Some (Wrap "context error" err))
  | None =>
      let key := tokenKeyOf tokenValue tokenType in
      match goredis.Get db now key with
      | inr err =>
          if decide (err = ErrRedisNil) then (db, None)
          else (db, Some (Wrap "failed to retrieve token for deletion" err))
      | inl data =>
          match json_Unmarshal data with
          | None => (db, Some (Wrap "failed to unmarshal token for deletion" ErrJSON))
          | Some t =>
              let validationKey := validationKeyOf (token.ValidationID t) in
              match goredis.SRem db now validationKey key with
              | (db1, Some err) =>
                  if decide (err = ErrRedisNil) then (goredis.Del db1 key, None)
                  else (db1, Some (Wrap "failed to remove token from validation index" err))
              | (db1, None) => (goredis.Del db1 key, None)
              end
          end
      end
  end.

Definition DeleteByValidationID (ctx : Context) (now : time.Time)
    (validationID : string) (db : gmap string goredis.entry)
  : gmap string goredis.entry * option error :=
  match ctx_Err ctx with
  | Some err => (db, Some (Wrap "context error" err))
  | None =>
      if decide (validationID = "") then (db, Some ErrEmptyValidationID)
      else
        let validationKey := validationKeyOf validationID in
        match goredis.SMembers db now validationKey with
        | inr err =>
            if decide (err = ErrRedisNil) then (db, None)
            else (db, Some (Wrap "failed to get token keys for validation ID" err))
        | inl keys =>
            if decide (length keys = 0%nat) then (db, None)
            else (goredis.Del (goredis.DelAll db keys) validationKey, None)
        end
  end.

#[global] Instance redis_Storage : token.Storage (gmap string goredis.entry) := {|
  token.Store := Store;
  token.Retrieve := Retrieve;
  token.Delete := Delete;
  token.DeleteByValidationID := DeleteByValidationID
|}.

End Storage.

End redis.

(** ** [RedisStorage] of package [token] (redis_storage.go) *)

Module RedisStorage.

Section Storage.
Context {codec : JSON}.

Definition Delete (ctx : Context) (now : time.Time) (tokenValue : string)
    (tokenType : TokenType) (db : gmap string goredis.entry)
  : gmap string goredis.entry * option error :=
  match ctx_Err ctx with
  | Some err => (db, Some (Wrap "context error" err))
  | None =>
      let key := redis.tokenKeyOf tokenValue tokenType in
      match goredis.Get db now key with
      | inr err =>
          if decide (err = ErrRedisNil) then (db, None)
          else (db, Some (Wrap "failed to retrieve token for deletion" err))
      | inl data =>
          match json_Unmarshal data with
          | None => (db, Some (Wrap "failed to unmarshal token for deletion" ErrJSON))
          | Some t =>
              let indexKey := redis.validationKeyOf (token.ValidationID t) in
              match goredis.SRem db now indexKey key with
              | (db1, Some err) =>
                  (db1, Some (Wrap "failed to update validation index on deletion" err))
              | (db1, None) => (goredis.Del db1 key, None)
              end
          end
      end
  end.

Definition Store (ctx : Context) (now : time.Time) (t : option token.Token)
    (db : gmap string goredis.entry) : gmap string goredis.entry * option error :=
  match ctx_Err ctx with
  | Some err => (db, Some (Wrap "context error" err))
  | None =>
      match token.validateToken t, t with
      | Some err, _ => (db, Some err)
      | None, None => (db, Some ErrTokenNil)
      | None, Some t =>
          let key := redis.tokenKeyOf (token.Value t) (token.Typ t) in
          match json_Marshal t with
          | None => (db, Some (Wrap "failed to marshal token" ErrJSON))
          | Some tokenData =>
              let ttl := time.Until now (token.ValidUntil t) in
              if ttl <=? 0 then (db, Some ErrInvalidToken)
              else
                match goredis.Set_ db now key tokenData ttl with
                | (db1, Some err) =>
                    (db1, Some (Wrap "failed to store token in Redis" err))
                | (db1, None) =>
                    let indexKey := redis.validationKeyOf (token.ValidationID t) in
                    match goredis.SAdd db1 now indexKey key with
                    | (db2, Some err) =>
                        (db2, Some (Wrap "failed to update validation index" err))
                    | (db2, None) =>
                        match goredis.Expire db2 now indexKey ttl with
                        | (db3, Some err) =>
                            (db3, Some (Wrap "failed to set expiration on validation index" err))
                        | (db3, None) => (db3, None)
                        end
                    end
                end
          end
      end
  end.

Definition Retrieve (ctx : Context) (now : time.Time) (tokenValue : string)
    (tokenType : TokenType) (db : gmap string goredis.entry)
  : gmap string goredis.entry * result token.Token :=
  match ctx_Err ctx with
  | Some err => (db, Err (Wrap "context error" err))
  | None =>
      let key := redis.tokenKeyOf tokenValue tokenType in
      match goredis.Get db now key with
      | inr err =>
          if decide (err = ErrRedisNil) then (db, Err ErrTokenNotFound)
          else (db, Err (Wrap "failed to retrieve token from Redis" err))
      | inl data =>
          match json_Unmarshal data with
          | None => (db, Err (Wrap "failed to unmarshal token" ErrJSON))
          | Some t =>
              if time.After now (token.ValidUntil t)
              then (fst (Delete ctx now tokenValue tokenType db),
                    Err (TokenExpiredError tokenValue tokenType (token.ValidUntil t)))
              else (db, Ok t)
          end
      end
  end.

Definition DeleteByValidationID (ctx : Context) (now : time.Time)
    (validationID : string) (db : gmap string goredis.entry)
  : gmap string goredis.entry * option error :=
  match ctx_Err ctx with
  | Some err => (db, Some (Wrap "context error" err))
  | None =>
      if decide (validationID = "") then (db, Some ErrEmptyValidationID)
      else
        let indexKey := redis.validationKeyOf validationID in
        match goredis.SMembers db now indexKey with
        | inr err => (db, Some (Wrap "failed to retrieve tokens for validation ID" err))
        | inl keys =>
            if decide (length keys = 0%nat) then (db, None)
            else (goredis.Del (goredis.DelAll db keys) indexKey, None)
        end
  end.

End Storage.

End RedisStorage.

(** ** Sequences of calls on a storage backend

    A call carries its arguments and the clock reading during the call;
    its outcome is what the caller observes. *)

Inductive Call : Type :=
| CallStore (ctx : Context) (now : time.Time) (t : option token.Token)
| CallRetrieve (ctx : Context) (now : time.Time) (tokenValue : string) (tokenType : TokenType)
| CallDelete (ctx : Context) (now : time.Time) (tokenValue : string) (tokenType : TokenType)
| CallDeleteByValidationID (ctx : Context) (now : time.Time) (validationID : string).

Inductive Outcome : Type :=
| Returned (err : option error)
| Retrieved (r : result token.Token).

Definition call {S} `{token.Storage S} (c : Call) (s : S) : S * Outcome :=
  match c with
  | CallStore ctx now t =>
      let (s', e) := token.Store ctx now t s in (s', Returned e)
  | CallRetrieve ctx now v ty =>
      let (s', r) := token.Retrieve ctx now v ty s in (s', Retrieved r)
  | CallDelete ctx now v ty =>
      let (s', e) := token.Delete ctx now v ty s in (s', Returned e)
  | CallDeleteByValidationID ctx now o =>
      let (s', e) := token.DeleteByValidationID ctx now o s in (s', Returned e)
  end.

Fixpoint run {S} `{token.Storage S} (calls : list Call) (s : S) : S * list Outcome :=
  match calls with
  | [] => (s, [])
  | c :: rest =>
      let (s1, o) := call c s in
      let (s2, os) := run rest s1 in
      (s2, o :: os)
  end.

Definition callNow (c : Call) : time.Time :=
  match c with
  | CallStore _ now _ | CallRetrieve _ now _ _
  | CallDelete _ now _ _ | CallDeleteByValidationID _ now _ => now
  end.

(** The states of the in-memory storage that a program can reach. *)
Definition reachable (s : memory.Storage) : Prop :=
  exists calls, fst (run calls memory.New) = s.

(** The owner index agrees with the primary map: every indexed key has a
    token, and no key is listed twice. *)
Definition indexConsistent (s : memory.Storage) : Prop :=
  forall owner keys,
    memory.validationID s !! owner = Some keys ->
    NoDup keys /\ forall k, k ∈ keys -> is_Some (memory.tokens s !! k).

Definition noTTLOption {S} (o : token.ManagerOption S) : bool :=
  match o with
  | token.WithLinkTokenTTL _ | token.WithCodeTokenTTL _ => false
  | _ => true
  end.

Definition keepsGenerator {S} (o : token.ManagerOption S) : bool :=
  match o with
  | token.WithGenerator _ => false
  | _ => true
  end.

(** [inString c s]: the byte [c] occurs in [s]. *)
Definition inString (c : ascii) (s : string) : Prop :=
  exists i, String.get i s = Some c.

(** [noColon s]: the byte [":"] does not occur in [s]. *)
Fixpoint noColon (s : string) : bool :=
  match s with
  | EmptyString => true
  | String c rest => negb (Ascii.eqb c ":") && noColon rest
  end.

(** What the operations maintain: a stored token sits under its own key
    and its key is listed under its owner. *)
Definition stored_indexed (s : memory.Storage) : Prop :=
  forall k t,
    memory.tokens s !! k = Some t ->
    k = TokenKey (token.Value t) (token.Typ t) /\
    exists keys, memory.validationID s !! token.ValidationID t = Some keys /\ k ∈ keys.

(** ** The two backends side by side

    [sim horizon m db] relates an in-memory storage and a Redis keyspace
    that hold the same tokens and the same index, none of which expires
    up to the instant [horizon]. *)

Section Simulation.
Context {codec : JSON}.

Definition keyString (k : tokenKey) : string :=
  redis.tokenKeyOf (value k) (typ k).

Definition survives (horizon : time.Time) (exp : option Z) : Prop :=
  match exp with
  | Some w => goredis.clock horizon <= w
  | None => True
  end.

Definition sim (horizon : time.Time) (m : memory.Storage)
    (db : gmap string goredis.entry) : Prop :=
  (forall v ty,
     match memory.tokens m !! TokenKey v ty with
     | Some t =>
         horizon < token.ValidUntil t /\
         exists d exp,
           json_Marshal t = Some d /\
           db !! redis.tokenKeyOf v ty = Some (goredis.Entry (goredis.VString d) exp) /\
           survives horizon exp
     | None => db !! redis.tokenKeyOf v ty = None
     end) /\
  (forall o,
     match memory.validationID m !! o with
     | Some keys =>
         keys <> [] /\
         exists exp,
           db !! redis.validationKeyOf o
           = Some (goredis.Entry (goredis.VSet (list_to_set (keyString <$> keys))) exp) /\
           survives horizon exp
     | None => db !! redis.validationKeyOf o = None
     end).

(** A call is admissible up to [horizon] when it is made no later than
    [horizon] and, for [Store], the token stays valid for at least one
    second after [horizon], its remaining lifetime fits a [Duration] and
    it can be marshalled. *)
Definition admissible (horizon : time.Time) (c : Call) : Prop :=
  callNow c <= horizon /\
  match c with
  | CallStore _ now (Some t) =>
      horizon + time.Second <= token.ValidUntil t /\
      token.ValidUntil t - now <= time.maxDuration /\
      is_Some (json_Marshal t)
  | _ => True
  end.

End Simulation.

(** What a caller observes of an outcome: success, the returned token,
    or the kind of the error as [errors.Is] and [errors.As] classify it. *)
Inductive ErrorKind : Type :=
| InvalidToken
| NotFound
| Expired
| EmptyOwner
| EmptyValue
| OtherError.

Definition kindOf (e : error) : ErrorKind :=
  if errors_Is e ErrInvalidToken then InvalidToken
  else if errors_Is e ErrTokenNotFound then NotFound
  else if IsTokenExpiredError e then Expired
  else if errors_Is e ErrEmptyValidationID then EmptyOwner
  else if errors_Is e ErrEmptyTokenValue then EmptyValue
  else OtherError.

Inductive Observation : Type :=
| Succeeded
| Token (t : token.Token)
| Failed (k : ErrorKind)
| Panicked.

Definition observe (o : Outcome) : Observation :=
  match o with
  | Returned None => Succeeded
  | Returned (Some e) => Failed (kindOf e)
  | Retrieved (Ok t) => Token t
  | Retrieved (Err e) => Failed (kindOf e)
  | Retrieved (Panic _) => Panicked
  end.

(** A codec for running the Redis-backed storage on concrete inputs: the
    marshalled form of a token is the token. *)
Definition idealJSON : JSON :=
  {| Data := token.Token;
     json_Marshal := Some;
     json_Unmarshal := Some;
     json_roundtrip := fun t d (e : Some t = Some d) => eq_sym e |}.

(** The index lists exactly stored tokens of the owner, each once. *)
Definition indexExact (s : memory.Storage) : Prop :=
  forall owner keys,
    memory.validationID s !! owner = Some keys ->
    NoDup keys /\
    forall k, k ∈ keys ->
      exists t, memory.tokens s !! k = Some t /\ token.ValidationID t = owner.

(** A call that keeps the index exact: [Store] of a key that is not
    stored yet, [Retrieve] of a token that has not expired, and every
    [Delete] and [DeleteByValidationID]. *)
Definition benign (s : memory.Storage) (c : Call) : Prop :=
  match c with
  | CallStore _ _ (Some t) =>
      memory.tokens s !! TokenKey (token.Value t) (token.Typ t) = None
  | CallRetrieve _ now v ty =>
      match memory.tokens s !! TokenKey v ty with
      | Some t => token.IsExpired t now = false
      | None => True
      end
  | _ => True
  end.

Fixpoint benignRun (calls : list Call) (s : memory.Storage) : Prop :=
  match calls with
  | [] => True
  | c :: rest => benign s c /\ benignRun rest (fst (call c s))
  end.

(** * Properties *)

(** ** Strings as byte sequences *)

Lemma string_get_length (s : string) (i : nat) :
  (i < String.length s)%nat -> exists c, String.get i s = Some c.
Proof.
  revert i. induction s as [|a s IH]; intros i Hi; simpl in *; [lia|].
  destruct i as [|i]; [eauto|]. apply IH. lia.
Qed.

Lemma string_get_Some_lt (s : string) (i : nat) (c : ascii) :
  String.get i s = Some c -> (i < String.length s)%nat.
Proof.
  revert i. induction s as [|a s IH]; intros i Hc; [done|].
  destruct i as [|i]; simpl in *; [lia|]. apply IH in Hc. lia.
Qed.

(** ** The generator *)

Lemma mapCode_spec (charset : string) (bytes : list byte) :
  charset <> "" ->
  exists code,
    token.mapCode charset (String.length charset) bytes = Ok code /\
    String.length code = length bytes /\
    (forall i b, bytes !! i = Some b ->
       String.get i code
       = String.get (N.to_nat (Byte.to_N b) mod String.length charset) charset /\
       is_Some (String.get i code)).
Proof.
  intros Hne.
  assert (Hlen : (0 < String.length charset)%nat).
  { destruct charset; [done | simpl; lia]. }
  induction bytes as [|b rest IH]; simpl.
  - exists "". split; [done|]. split; [done|]. intros i b Hb. by destruct i.
  - destruct (String.length charset) as [|n] eqn:En; [lia|].
    rewrite <- En in *.
    destruct (string_get_length charset
                (N.to_nat (Byte.to_N b) mod String.length charset)) as [c Hc].
    { apply Nat.mod_upper_bound. lia. }
    rewrite Hc.
    destruct IH as (code & -> & Hl & Hget).
    exists (String c code). split; [done|]. split; [simpl; lia|].
    intros [|i] b' Hb'; simpl in *.
    + injection Hb' as <-. rewrite Hc. eauto.
    + by apply Hget.
Qed.

Lemma GenerateCodeToken_length (g : token.Generator) (stream : nat -> byte) :
  0 <= token.codeTokenLength g ->
  token.codeCharset g <> "" ->
  exists code,
    token.GenerateCodeToken g (SrcBytes stream) = Ok code /\
    Z.of_nat (String.length code) = token.codeTokenLength g.
Proof.
  intros HM HC. unfold token.GenerateCodeToken.
  destruct (Z.ltb_spec (token.codeTokenLength g) 0) as [?|_]; [lia|].
  simpl rand_Read.
  destruct (mapCode_spec (token.codeCharset g)
              (map stream (seq 0 (Z.to_nat (token.codeTokenLength g)))) HC)
    as (code & Hcode & Hlen & _).
  rewrite length_map, length_seq in Hlen.
  exists code. split; [done | lia].
Qed.

(** C9.  With a code length [M >= 0] and a non-empty charset [C], for every
    sequence of bytes delivered by the random source, [GenerateCodeToken]
    returns a string of exactly [M] bytes whose [i]-th byte is
    [C[byte_i mod |C|]]; every byte of the code occurs in [C]. *)
Theorem GenerateCodeToken_spec (g : token.Generator) (stream : nat -> byte) :
  0 <= token.codeTokenLength g ->
  token.codeCharset g <> "" ->
  exists code,
    token.GenerateCodeToken g (SrcBytes stream) = Ok code /\
    Z.of_nat (String.length code) = token.codeTokenLength g /\
    (forall i, (i < String.length code)%nat ->
       String.get i code
       = String.get (N.to_nat (Byte.to_N (stream i))
                       mod String.length (token.codeCharset g))
           (token.codeCharset g)) /\
    (forall i c, String.get i code = Some c -> inString c (token.codeCharset g)).
Proof.
  intros HM HC. unfold token.GenerateCodeToken.
  destruct (Z.ltb_spec (token.codeTokenLength g) 0) as [?|_]; [lia|].
  simpl rand_Read.
  set (n := Z.to_nat (token.codeTokenLength g)).
  destruct (mapCode_spec (token.codeCharset g) (map stream (seq 0 n)) HC)
    as (code & Hcode & Hlen & Hget).
  rewrite length_map, length_seq in Hlen.
  assert (Hnth : forall i, (i < n)%nat -> map stream (seq 0 n) !! i = Some (stream i)).
  { intros i Hi. rewrite list_lookup_fmap, lookup_seq_lt by done. done. }
  exists code. split; [done|]. split; [subst n; lia|]. split.
  - intros i Hi. apply (Hget i (stream i)). apply Hnth. lia.
  - intros i c Hc.
    assert (Hi : (i < n)%nat).
    { apply string_get_Some_lt in Hc. lia. }
    destruct (Hget i (stream i) (Hnth i Hi)) as [Heq _].
    rewrite Hc in Heq. eexists. symmetry. exact Heq.
Qed.

Lemma GenerateCodeToken_spec_witness :
  exists code,
    token.GenerateCodeToken token.NewGenerator (SrcBytes (fun _ => x2a)) = Ok code /\
    Z.of_nat (String.length code) = token.codeTokenLength token.NewGenerator /\
    (forall i, (i < String.length code)%nat ->
       String.get i code
       = String.get (N.to_nat (Byte.to_N x2a)
                       mod String.length (token.codeCharset token.NewGenerator))
           (token.codeCharset token.NewGenerator)) /\
    (forall i c, String.get i code = Some c ->
       inString c (token.codeCharset token.NewGenerator)).
Proof.
  apply (GenerateCodeToken_spec token.NewGenerator (fun _ => x2a)).
  - vm_compute. discriminate.
  - discriminate.
Defined.

Lemma WithCodeCharset_nonempty (g : token.Generator) (charset : string) :
  token.codeCharset g <> "" ->
  token.codeCharset (token.WithCodeCharset g charset) <> "".
Proof.
  intros Hg. unfold token.WithCodeCharset. by case_decide.
Qed.

Lemma applyGenOption_nonempty (g : token.Generator) (o : token.GenOption) :
  token.codeCharset g <> "" ->
  token.codeCharset (token.applyGenOption g o) <> "".
Proof.
  destruct o; simpl; auto using WithCodeCharset_nonempty.
Qed.

Lemma fold_applyGenOption_nonempty (opts : list token.GenOption) (g : token.Generator) :
  token.codeCharset g <> "" ->
  token.codeCharset (fold_left token.applyGenOption opts g) <> "".
Proof.
  revert g. induction opts as [|o opts IH]; intros g Hg; simpl; [done|].
  by apply IH, applyGenOption_nonempty.
Qed.

Lemma GenerateCodeToken_no_div0 (g : token.Generator) (src : Source) :
  token.codeCharset g <> "" ->
  token.GenerateCodeToken g src <> Panic PanicDivideByZero.
Proof.
  intros Hg. unfold token.GenerateCodeToken.
  destruct (token.codeTokenLength g <? 0); [done|].
  destruct (rand_Read src _) as [bytes|]; [|done].
  destruct (mapCode_spec (token.codeCharset g) bytes Hg) as (code & -> & _). done.
Qed.

(** C10.  [WithCodeCharset] with the empty string leaves the generator
    unchanged; a generator obtained from [NewGenerator] by any sequence of
    [WithLinkTokenLength], [WithCodeTokenLength] and [WithCodeCharset] calls
    has a non-empty charset, and the remainder in [GenerateCodeToken] never
    divides by zero. *)
Theorem configured_charset_nonempty :
  (forall g, token.WithCodeCharset g "" = g) /\
  (forall opts, token.codeCharset (token.configure opts) <> "") /\
  (forall opts src,
     token.GenerateCodeToken (token.configure opts) src <> Panic PanicDivideByZero).
Proof.
  assert (H : forall opts, token.codeCharset (token.configure opts) <> "").
  { intros opts. by apply fold_applyGenOption_nonempty. }
  split; [done|]. split; [exact H|].
  intros opts src. apply GenerateCodeToken_no_div0, H.
Qed.

(** The division by zero is reachable for an empty charset: the guard of
    [WithCodeCharset] is what excludes it. *)
Example mapCode_empty_charset :
  token.mapCode "" 0 [x00] = Panic PanicDivideByZero.
Proof. reflexivity. Qed.

(** ** The manager *)

Lemma fold_applyOption_TTLs {S} (opts : list (token.ManagerOption S)) (m : token.Manager S) :
  forallb noTTLOption opts = true ->
  token.linkTokenTTL (fold_left token.applyOption opts m) = token.linkTokenTTL m /\
  token.codeTokenTTL (fold_left token.applyOption opts m) = token.codeTokenTTL m.
Proof.
  revert m. induction opts as [|o opts IH]; intros m Hno; simpl in *; [done|].
  apply andb_prop in Hno as [Ho Hno].
  destruct (IH (token.applyOption m o) Hno) as [-> ->].
  by destruct o.
Qed.

Lemma fold_applyOption_generator {S} (opts : list (token.ManagerOption S)) (m : token.Manager S) :
  forallb keepsGenerator opts = true ->
  token.generator (fold_left token.applyOption opts m) = token.generator m.
Proof.
  revert m. induction opts as [|o opts IH]; intros m Hno; simpl in *; [done|].
  apply andb_prop in Hno as [Ho Hno].
  rewrite (IH (token.applyOption m o) Hno). by destruct o.
Qed.

Lemma createToken_Ok {S} `{token.Storage S} (m m' : token.Manager S) ctx src now now'
    tokenType validationID ttl tok :
  token.createToken m ctx src now now' tokenType validationID ttl = (m', Ok tok) ->
  token.Typ tok = tokenType /\
  token.ValidationID tok = validationID /\
  token.CreatedAt tok = now /\
  token.ValidUntil tok = token.CreatedAt tok + ttl /\
  (tokenType = token.TypeLink \/ tokenType = token.TypeCode) /\
  validationID <> "" /\ 0 < ttl.
Proof.
  unfold token.createToken.
  destruct (ctx_Err ctx); [done|].
  case_decide; [done|].
  destruct (Z.leb_spec ttl 0); [done|].
  assert (Hfin : forall generated,
    match generated with
    | Panic p => (m, Panic p)
    | Err e => (m, Err (Wrap "failed to generate token" e))
    | Ok tokenValue =>
        match token.Store ctx now' (Some (token.New tokenValue tokenType validationID ttl now))
                (token.storage m) with
        | (s', Some err) => (token.withStorage m s', Err (Wrap "failed to store token" err))
        | (s', None) =>
            (token.withStorage m s', Ok (token.New tokenValue tokenType validationID ttl now))
        end
    end = (m', Ok tok) ->
    token.Typ tok = tokenType /\ token.ValidationID tok = validationID /\
    token.CreatedAt tok = now /\ token.ValidUntil tok = token.CreatedAt tok + ttl).
  { intros [v|e|p]; [|done..].
    destruct (token.Store _ _ _ _) as [s' [err|]]; [done|].
    intros [= _ <-]. done. }
  destruct (Z.eqb_spec tokenType token.TypeLink) as [->|_].
  { intros Hc. apply Hfin in Hc. intuition. }
  destruct (Z.eqb_spec tokenType token.TypeCode) as [->|_]; [|done].
  intros Hc. apply Hfin in Hc. intuition.
Qed.

Lemma EncodeToString_nonempty (bytes : list byte) :
  bytes <> [] -> token.EncodeToString bytes <> "".
Proof. by destruct bytes as [|b0 [|b1 [|b2 rest]]]. Qed.

Lemma memory_Store_valid (t : token.Token) (s : memory.Storage) :
  token.Value t <> "" -> token.ValidationID t <> "" -> token.ValidUntil t <> 0 ->
  memory.Store Background (Some t) s =
    ({| memory.tokens := <[TokenKey (token.Value t) (token.Typ t) := t]> (memory.tokens s);
        memory.validationID :=
          <[token.ValidationID t :=
              (default [] (memory.validationID s !! token.ValidationID t)
                 ++ [TokenKey (token.Value t) (token.Typ t)])%list]> (memory.validationID s) |},
     None).
Proof.
  intros Hv Ho Hu. unfold memory.Store, token.Validate. simpl.
  repeat case_decide; try done.
  unfold time.IsZero. destruct (Z.eqb_spec (token.ValidUntil t) 0); done.
Qed.

Lemma createToken_memory_default (m : token.Manager memory.Storage)
    (stream : nat -> byte) (now now' : time.Time)
    (tokenType : TokenType) (validationID : string) (ttl : time.Duration) :
  token.generator m = token.NewGenerator ->
  tokenType = token.TypeLink \/ tokenType = token.TypeCode ->
  validationID <> "" -> 0 < now -> 0 < ttl ->
  exists m' tok,
    token.createToken m Background (SrcBytes stream) now now' tokenType validationID ttl
    = (m', Ok tok).
Proof.
  intros Hg Hty Hvid Hnow Httl. unfold token.createToken. simpl ctx_Err.
  case_decide; [done|].
  destruct (Z.leb_spec ttl 0); [lia|].
  rewrite Hg.
  assert (Hstore : forall v, v <> "" ->
    exists s', token.Store Background now'
                 (Some (token.New v tokenType validationID ttl now)) (token.storage m)
               = (s', None)).
  { intros v Hv. simpl. rewrite memory_Store_valid; simpl; eauto.
    unfold time.Add. lia. }
  destruct Hty as [-> | ->].
  - change (token.TypeLink =? token.TypeLink) with true. cbv iota.
    unfold token.GenerateLinkToken.
    change (token.linkTokenLength token.NewGenerator <? 0) with false. cbv iota.
    unfold rand_Read.
    destruct (Hstore (token.EncodeToString
                        (map stream (seq 0 (Z.to_nat (token.linkTokenLength
                                                        token.NewGenerator))))))
      as [s' Hs'].
    { apply EncodeToString_nonempty. done. }
    rewrite Hs'. eauto.
  - change (token.TypeCode =? token.TypeLink) with false.
    change (token.TypeCode =? token.TypeCode) with true. cbv iota.
    destruct (GenerateCodeToken_length token.NewGenerator stream)
      as (code & Hcode & Hlen); [done | done |].
    rewrite Hcode.
    destruct (Hstore code) as [s' Hs'].
    { intros ->. simpl in Hlen. done. }
    rewrite Hs'. eauto.
Qed.

Lemma NewManager_TTLs {S} (st : S) (opts : list (token.ManagerOption S)) :
  forallb noTTLOption opts = true ->
  token.linkTokenTTL (token.NewManager st opts) = 24 * time.Hour /\
  token.codeTokenTTL (token.NewManager st opts) = 10 * time.Minute.
Proof. intros Hno. by apply (fold_applyOption_TTLs opts). Qed.

Lemma NewManager_generator {S} (st : S) (opts : list (token.ManagerOption S)) :
  forallb keepsGenerator opts = true ->
  token.generator (token.NewManager st opts) = token.NewGenerator.
Proof. intros Hno. by apply (fold_applyOption_generator opts). Qed.

Lemma CreateLinkToken_Ok {S} `{token.Storage S} (st : S)
    (opts : list (token.ManagerOption S)) ctx src now now' validationID m' tok :
  forallb noTTLOption opts = true ->
  token.CreateLinkToken (token.NewManager st opts) ctx src now now' validationID
  = (m', Ok tok) ->
  token.Typ tok = token.TypeLink /\
  token.ValidationID tok = validationID /\
  token.ValidUntil tok = token.CreatedAt tok + 24 * time.Hour.
Proof.
  intros Hno. unfold token.CreateLinkToken.
  destruct (NewManager_TTLs st opts Hno) as [-> _].
  intros Hc. apply createToken_Ok in Hc. intuition.
Qed.

Lemma CreateCodeToken_Ok {S} `{token.Storage S} (st : S)
    (opts : list (token.ManagerOption S)) ctx src now now' validationID m' tok :
  forallb noTTLOption opts = true ->
  token.CreateCodeToken (token.NewManager st opts) ctx src now now' validationID
  = (m', Ok tok) ->
  token.Typ tok = token.TypeCode /\
  token.ValidationID tok = validationID /\
  token.ValidUntil tok = token.CreatedAt tok + 10 * time.Minute.
Proof.
  intros Hno. unfold token.CreateCodeToken.
  destruct (NewManager_TTLs st opts Hno) as [_ ->].
  intros Hc. apply createToken_Ok in Hc. intuition.
Qed.

(** C8.  A manager built by [NewManager] without TTL options creates LINK
    tokens valid for 24 hours and CODE tokens valid for 10 minutes, for
    every non-empty validation ID; every created token has
    [ValidUntil = CreatedAt + ttl] for the TTL used.  Creation succeeds on
    the in-memory backend with the default generator; on any backend a
    token that is returned has these fields. *)
Theorem NewManager_default_TTLs
    (st : memory.Storage) (opts : list (token.ManagerOption memory.Storage))
    (stream : nat -> byte) (now now' : time.Time) (validationID : string) :
  validationID <> "" -> 0 < now ->
  forallb noTTLOption opts = true ->
  forallb keepsGenerator opts = true ->
  (exists m' tok,
     token.CreateLinkToken (token.NewManager st opts) Background (SrcBytes stream)
       now now' validationID = (m', Ok tok) /\
     token.Typ tok = token.TypeLink /\
     token.ValidationID tok = validationID /\
     token.ValidUntil tok = token.CreatedAt tok + 24 * time.Hour) /\
  (exists m' tok,
     token.CreateCodeToken (token.NewManager st opts) Background (SrcBytes stream)
       now now' validationID = (m', Ok tok) /\
     token.Typ tok = token.TypeCode /\
     token.ValidationID tok = validationID /\
     token.ValidUntil tok = token.CreatedAt tok + 10 * time.Minute) /\
  (forall S (B : token.Storage S) (s0 : S) (os : list (token.ManagerOption S))
          ctx src n n' vid m' tok,
     forallb noTTLOption os = true ->
     (token.CreateLinkToken (token.NewManager s0 os) ctx src n n' vid = (m', Ok tok) ->
      token.Typ tok = token.TypeLink /\
      token.ValidUntil tok = token.CreatedAt tok + 24 * time.Hour) /\
     (token.CreateCodeToken (token.NewManager s0 os) ctx src n n' vid = (m', Ok tok) ->
      token.Typ tok = token.TypeCode /\
      token.ValidUntil tok = token.CreatedAt tok + 10 * time.Minute)) /\
  (forall S (B : token.Storage S) (m m' : token.Manager S)
          ctx src n n' ty vid ttl tok,
     token.CreateTokenWithTTL m ctx src n n' ty vid ttl = (m', Ok tok) ->
     token.Typ tok = ty /\ token.ValidUntil tok = token.CreatedAt tok + ttl).
Proof.
  intros Hvid Hnow Hno Hgen.
  destruct (NewManager_TTLs st opts Hno) as [HL HC].
  pose proof (NewManager_generator st opts Hgen) as HG.
  split; [|split; [|split]].
  - destruct (createToken_memory_default (token.NewManager st opts) stream now now'
                token.TypeLink validationID (24 * time.Hour))
      as (m' & tok & Hc); [exact HG | by left | done | done | done |].
    rewrite <- HL in Hc. exists m', tok. split; [exact Hc|].
    by apply (CreateLinkToken_Ok st opts) in Hc.
  - destruct (createToken_memory_default (token.NewManager st opts) stream now now'
                token.TypeCode validationID (10 * time.Minute))
      as (m' & tok & Hc); [exact HG | by right | done | done | done |].
    rewrite <- HC in Hc. exists m', tok. split; [exact Hc|].
    by apply (CreateCodeToken_Ok st opts) in Hc.
  - intros S B s0 os ctx src n n' vid m' tok Hos. split; intros Hc.
    + apply (CreateLinkToken_Ok s0 os) in Hc; [|done]. intuition.
    + apply (CreateCodeToken_Ok s0 os) in Hc; [|done]. intuition.
  - intros S B m m' ctx src n n' ty vid ttl tok Hc.
    apply createToken_Ok in Hc. intuition.
Qed.

Lemma NewManager_default_TTLs_witness :
  (exists m' tok,
     token.CreateLinkToken (token.NewManager memory.New [token.WithManagerLogger])
       Background (SrcBytes (fun _ => x2a)) 1000 1000 "val-1" = (m', Ok tok) /\
     token.Typ tok = token.TypeLink /\
     token.ValidationID tok = "val-1" /\
     token.ValidUntil tok = token.CreatedAt tok + 24 * time.Hour) /\
  (exists m' tok,
     token.CreateCodeToken (token.NewManager memory.New [token.WithManagerLogger])
       Background (SrcBytes (fun _ => x2a)) 1000 1000 "val-1" = (m', Ok tok) /\
     token.Typ tok = token.TypeCode /\
     token.ValidationID tok = "val-1" /\
     token.ValidUntil tok = token.CreatedAt tok + 10 * time.Minute).
Proof.
  destruct (NewManager_default_TTLs memory.New [token.WithManagerLogger]
              (fun _ => x2a) 1000 1000 "val-1") as (H1 & H2 & _).
  - discriminate.
  - reflexivity.
  - reflexivity.
  - reflexivity.
  - split; [exact H1 | exact H2].
Defined.

(** ** The in-memory storage *)

Lemma lookup_fold_delete {K V : Type} `{Countable K} (keys : list K)
    (m : gmap K V) (k : K) :
  fold_left (fun m key => delete key m) keys m !! k
  = if decide (k ∈ keys) then None else m !! k.
Proof.
  revert m. induction keys as [|a keys IH]; intros m; simpl.
  - destruct (decide (k ∈ [])) as [Hin|_]; [by apply elem_of_nil in Hin | done].
  - rewrite IH.
    destruct (decide (k ∈ keys)) as [Hin|Hin], (decide (k ∈ a :: keys)) as [Hin'|Hin'];
      try done.
    + exfalso. apply Hin'. by right.
    + apply elem_of_cons in Hin' as [->|?]; [|done]. apply lookup_delete_eq.
    + apply lookup_delete_ne. intros ->. apply Hin'. left.
Qed.

Lemma keepKey_true (key k : tokenKey) :
  memory.keepKey key k = true <-> k <> key.
Proof.
  unfold memory.keepKey. destruct k as [v ty], key as [v' ty']; simpl.
  destruct (String.eqb_spec v v') as [->|Hv], (Z.eqb_spec ty ty') as [->|Ht];
    simpl; split; try done; intros _; congruence.
Qed.

Lemma elem_of_filter_keepKey (key k : tokenKey) (keys : list tokenKey) :
  k ∈ List.filter (memory.keepKey key) keys <-> k ∈ keys /\ k <> key.
Proof.
  rewrite !list_elem_of_In, filter_In, keepKey_true. done.
Qed.

Lemma stored_indexed_New : stored_indexed memory.New.
Proof. intros k t H. simpl in H. by rewrite lookup_empty in H. Qed.

Lemma stored_indexed_Store ctx t s :
  stored_indexed s -> stored_indexed (fst (memory.Store ctx t s)).
Proof.
  intros Hs. unfold memory.Store.
  destruct (ctx_Err ctx); [done|].
  destruct (token.Validate t) as [e|], t as [t|]; try done. simpl.
  intros k t' Hk. simpl in Hk |- *.
  destruct (decide (k = TokenKey (token.Value t) (token.Typ t))) as [->|Hne].
  - rewrite lookup_insert_eq in Hk. injection Hk as <-. split; [done|].
    rewrite lookup_insert_eq. eexists. split; [done|].
    apply elem_of_app. right. by apply list_elem_of_singleton.
  - rewrite lookup_insert_ne in Hk by done.
    destruct (Hs k t' Hk) as (Hkey & keys & Hkeys & Hin). split; [done|].
    destruct (decide (token.ValidationID t = token.ValidationID t')) as [Heq|Hno].
    + rewrite Heq, lookup_insert_eq. eexists. split; [done|].
      rewrite Hkeys. simpl. apply elem_of_app. by left.
    + rewrite lookup_insert_ne by done. eauto.
Qed.

Lemma stored_indexed_Retrieve ctx now v ty s :
  stored_indexed s -> stored_indexed (fst (memory.Retrieve ctx now v ty s)).
Proof.
  intros Hs. unfold memory.Retrieve.
  destruct (ctx_Err ctx); [done|]. simpl.
  destruct (memory.tokens s !! TokenKey v ty) as [t|] eqn:Ht; [|done].
  destruct (token.IsExpired t now); [|done]. simpl.
  intros k t' Hk. simpl in *.
  apply lookup_delete_Some in Hk as [_ Hk]. by apply Hs.
Qed.

Lemma stored_indexed_Delete ctx v ty s :
  stored_indexed s -> stored_indexed (fst (memory.Delete ctx v ty s)).
Proof.
  intros Hs. unfold memory.Delete.
  destruct (ctx_Err ctx); [done|]. simpl.
  destruct (memory.tokens s !! TokenKey v ty) as [t|] eqn:Ht; [|done].
  destruct (memory.validationID s !! token.ValidationID t) as [keys|] eqn:Hkeys.
  - assert (Hcase : forall k t', delete (TokenKey v ty) (memory.tokens s) !! k = Some t' ->
      k = TokenKey (token.Value t') (token.Typ t') /\
      (token.ValidationID t' = token.ValidationID t ->
         k ∈ List.filter (memory.keepKey (TokenKey v ty)) keys) /\
      (token.ValidationID t' <> token.ValidationID t ->
         exists keys', memory.validationID s !! token.ValidationID t' = Some keys' /\
                       k ∈ keys')).
    { intros k t' Hk. apply lookup_delete_Some in Hk as [Hne Hk].
      destruct (Hs k t' Hk) as (Hkey & keys' & Hkeys' & Hin).
      split; [done|]. split.
      - intros Heq. rewrite Heq, Hkeys in Hkeys'. injection Hkeys' as <-.
        by apply elem_of_filter_keepKey.
      - intros _. eauto. }
    destruct (0 <? Z.of_nat (length (List.filter (memory.keepKey (TokenKey v ty)) keys)))
      eqn:Hlen; simpl; intros k t' Hk; simpl in *;
      destruct (Hcase k t' Hk) as (Hkey & Hsame & Hother); (split; [done|]).
    + destruct (decide (token.ValidationID t' = token.ValidationID t)) as [Heq|Hno].
      * rewrite Heq, lookup_insert_eq. eauto.
      * rewrite lookup_insert_ne by done. eauto.
    + destruct (decide (token.ValidationID t' = token.ValidationID t)) as [Heq|Hno].
      * specialize (Hsame Heq).
        destruct (List.filter (memory.keepKey (TokenKey v ty)) keys); [|done].
        by apply elem_of_nil in Hsame.
      * rewrite lookup_delete_ne by done. eauto.
  - simpl. intros k t' Hk. simpl in *.
    apply lookup_delete_Some in Hk as [_ Hk]. by apply Hs.
Qed.

Lemma stored_indexed_DeleteByValidationID ctx o s :
  stored_indexed s -> stored_indexed (fst (memory.DeleteByValidationID ctx o s)).
Proof.
  intros Hs. unfold memory.DeleteByValidationID.
  destruct (ctx_Err ctx); [done|].
  case_decide; [done|].
  destruct (memory.validationID s !! o) as [keys|] eqn:Hkeys; [|done]. simpl.
  intros k t Hk. simpl in *.
  rewrite lookup_fold_delete in Hk.
  destruct (decide (k ∈ keys)) as [Hin|Hin]; [done|].
  destruct (Hs k t Hk) as (Hkey & keys' & Hkeys' & Hin'). split; [done|].
  destruct (decide (token.ValidationID t = o)) as [Heq|Hne].
  - rewrite Heq, Hkeys in Hkeys'. by injection Hkeys' as <-.
  - rewrite lookup_delete_ne by done. eauto.
Qed.

Lemma stored_indexed_call c s :
  stored_indexed s -> stored_indexed (fst (call c s)).
Proof.
  intros Hs. destruct c; simpl.
  - pose proof (stored_indexed_Store ctx t s Hs). by destruct (memory.Store _ _ _).
  - pose proof (stored_indexed_Retrieve ctx now tokenValue tokenType s Hs).
    by destruct (memory.Retrieve _ _ _ _ _).
  - pose proof (stored_indexed_Delete ctx tokenValue tokenType s Hs).
    by destruct (memory.Delete _ _ _ _).
  - pose proof (stored_indexed_DeleteByValidationID ctx validationID s Hs).
    by destruct (memory.DeleteByValidationID _ _ _).
Qed.

Lemma stored_indexed_run calls s :
  stored_indexed s -> stored_indexed (fst (run calls s)).
Proof.
  revert s. induction calls as [|c calls IH]; intros s Hs; simpl; [done|].
  pose proof (stored_indexed_call c s Hs) as H1.
  destruct (call c s) as [s1 o]. simpl in H1.
  pose proof (IH s1 H1) as H2.
  by destruct (run calls s1).
Qed.

Lemma reachable_stored_indexed s : reachable s -> stored_indexed s.
Proof. intros [calls <-]. apply stored_indexed_run, stored_indexed_New. Qed.

(** *** Retrieval of an expired token *)

Lemma memory_Retrieve_expired (s : memory.Storage) (v : string) (ty : TokenType)
    (t : token.Token) (now : time.Time) :
  memory.tokens s !! TokenKey v ty = Some t ->
  token.ValidUntil t < now ->
  memory.Retrieve Background now v ty s
  = ({| memory.tokens := delete (TokenKey v ty) (memory.tokens s);
        memory.validationID := memory.validationID s |},
     Err (TokenExpiredError v token.TypeLink (token.ValidUntil t))).
Proof.
  intros Ht Hexp. unfold memory.Retrieve. simpl. rewrite Ht.
  unfold token.IsExpired, time.After.
  destruct (Z.ltb_spec (token.ValidUntil t) now); [done | lia].
Qed.

Lemma MemoryStorage_Retrieve_expired (s : MemoryStorage.MemoryStorage) (v : string)
    (ty : TokenType) (t : token.Token) (now : time.Time) :
  MemoryStorage.tokens s !! TokenKey v ty = Some t ->
  token.ValidUntil t < now ->
  MemoryStorage.Retrieve Background now v ty s
  = ({| MemoryStorage.tokens := delete (TokenKey v ty) (MemoryStorage.tokens s);
        MemoryStorage.validationID := MemoryStorage.validationID s |},
     Err (TokenExpiredError (token.Value t) (token.Typ t) (token.ValidUntil t))).
Proof.
  intros Ht Hexp. unfold MemoryStorage.Retrieve. simpl. rewrite Ht.
  unfold token.IsExpired, time.After.
  destruct (Z.ltb_spec (token.ValidUntil t) now); [done | lia].
Qed.

(** C3.  At the failing input: a CODE token stored in [memory.Storage] and
    retrieved after its [ValidUntil].  [Retrieve] returns the expired error
    (not [ErrTokenNotFound], not the token) with the token's value and
    expiry instant and purges the record, but the error's [TokenType] is
    [TypeLink], not the token's kind; [MemoryStorage.Retrieve] of storage.go
    reports [TypeCode] on the same input. *)
Theorem memory_Retrieve_expired_kind :
  let t := {| token.Value := "1234"; token.Typ := token.TypeCode;
              token.CreatedAt := 1000; token.ValidUntil := 2000;
              token.ValidationID := "val-1" |} in
  let s := fst (memory.Store Background (Some t) memory.New) in
  let s0 := fst (MemoryStorage.Store Background (Some t) MemoryStorage.NewMemoryStorage) in
  memory.tokens s !! TokenKey "1234" token.TypeCode = Some t /\
  snd (memory.Retrieve Background 3000 "1234" token.TypeCode s)
    = Err (TokenExpiredError "1234" token.TypeLink 2000) /\
  memory.tokens (fst (memory.Retrieve Background 3000 "1234" token.TypeCode s))
    !! TokenKey "1234" token.TypeCode = None /\
  snd (MemoryStorage.Retrieve Background 3000 "1234" token.TypeCode s0)
    = Err (TokenExpiredError "1234" token.TypeCode 2000).
Proof. vm_compute. repeat split; reflexivity. Qed.

(** *** The owner index *)

(** C4.  At the failing inputs: after [Store] and the purge of the expired
    token inside [Retrieve], the index still lists the key of a token that
    the primary map no longer holds; after storing the same token twice the
    index lists its key twice. *)
Theorem memory_index_diverges :
  let t := {| token.Value := "abc"; token.Typ := token.TypeLink;
              token.CreatedAt := 1000; token.ValidUntil := 2000;
              token.ValidationID := "val-1" |} in
  let purged := fst (run [CallStore Background 1000 (Some t);
                          CallRetrieve Background 3000 "abc" token.TypeLink] memory.New) in
  let twice := fst (run [CallStore Background 1000 (Some t);
                         CallStore Background 1000 (Some t)] memory.New) in
  (reachable purged /\
   memory.validationID purged !! "val-1" = Some [TokenKey "abc" token.TypeLink] /\
   memory.tokens purged !! TokenKey "abc" token.TypeLink = None /\
   ~ indexConsistent purged) /\
  (reachable twice /\
   memory.validationID twice !! "val-1"
     = Some [TokenKey "abc" token.TypeLink; TokenKey "abc" token.TypeLink] /\
   ~ indexConsistent twice).
Proof.
  intros t purged twice.
  assert (Hp : memory.validationID purged !! "val-1" = Some [TokenKey "abc" token.TypeLink])
    by (vm_compute; reflexivity).
  assert (Hp' : memory.tokens purged !! TokenKey "abc" token.TypeLink = None)
    by (vm_compute; reflexivity).
  assert (Ht : memory.validationID twice !! "val-1"
               = Some [TokenKey "abc" token.TypeLink; TokenKey "abc" token.TypeLink])
    by (vm_compute; reflexivity).
  split; [split; [|split; [|split]] | split; [|split]]; try done.
  - by eexists.
  - intros Hc. destruct (Hc _ _ Hp) as [_ Hin].
    destruct (Hin (TokenKey "abc" token.TypeLink)) as [x Hx]; [left|].
    rewrite Hp' in Hx. done.
  - by eexists.
  - intros Hc. destruct (Hc _ _ Ht) as [Hnd _].
    apply NoDup_cons in Hnd as [Hnin _]. apply Hnin. left.
Qed.

(** Where the index is kept in step: [Store] of a key that is not yet
    stored, [Delete] and [DeleteByValidationID] preserve [indexExact], and
    so does [Retrieve] when it does not purge. *)
Lemma indexExact_consistent (s : memory.Storage) : indexExact s -> indexConsistent s.
Proof.
  intros Hs o keys Hk. destruct (Hs o keys Hk) as [Hnd Hin]. split; [done|].
  intros k Hkin. destruct (Hin k Hkin) as (t & -> & _). eauto.
Qed.

Lemma indexExact_New : indexExact memory.New.
Proof. intros o keys Hk. simpl in Hk. by rewrite lookup_empty in Hk. Qed.

Lemma indexExact_Store_fresh (t : token.Token) (s : memory.Storage) :
  indexExact s ->
  memory.tokens s !! TokenKey (token.Value t) (token.Typ t) = None ->
  indexExact (fst (memory.Store Background (Some t) s)).
Proof.
  intros Hs Hfresh. unfold memory.Store. cbn [ctx_Err].
  destruct (token.Validate (Some t)); [done|]. simpl.
  set (key := TokenKey (token.Value t) (token.Typ t)) in *.
  intros o keys Hk. simpl in *.
  destruct (decide (token.ValidationID t = o)) as [<-|Ho].
  - rewrite lookup_insert_eq in Hk. injection Hk as <-.
    assert (Hold : NoDup (default [] (memory.validationID s !! token.ValidationID t)) /\
                   forall k, k ∈ default [] (memory.validationID s !! token.ValidationID t) ->
                     exists t', memory.tokens s !! k = Some t' /\
                                token.ValidationID t' = token.ValidationID t).
    { destruct (memory.validationID s !! token.ValidationID t) as [keys|] eqn:Hkeys.
      - by apply Hs.
      - simpl. split; [apply NoDup_nil_2|]. intros k Hin. by apply elem_of_nil in Hin. }
    destruct Hold as [Hnd Hin]. split.
    + apply NoDup_app. split; [done|]. split; [|apply NoDup_singleton].
      intros k Hk ->%list_elem_of_singleton.
      destruct (Hin key Hk) as (t' & Ht' & _). by rewrite Hfresh in Ht'.
    + intros k [Hk| ->%list_elem_of_singleton]%elem_of_app.
      * destruct (Hin k Hk) as (t' & Ht' & Hown).
        exists t'. split; [|done]. rewrite lookup_insert_ne; [done|].
        intros <-. by rewrite Hfresh in Ht'.
      * exists t. by rewrite lookup_insert_eq.
  - rewrite lookup_insert_ne in Hk by done.
    destruct (Hs o keys Hk) as [Hnd Hin]. split; [done|].
    intros k Hkin. destruct (Hin k Hkin) as (t' & Ht' & Hown).
    exists t'. split; [|done]. rewrite lookup_insert_ne; [done|].
    intros <-. by rewrite Hfresh in Ht'.
Qed.

Lemma indexExact_Retrieve_live (now : time.Time) (v : string) (ty : TokenType)
    (s : memory.Storage) (t : token.Token) :
  indexExact s ->
  snd (memory.Retrieve Background now v ty s) = Ok t ->
  fst (memory.Retrieve Background now v ty s) = s.
Proof.
  intros _. unfold memory.Retrieve. simpl.
  destruct (memory.tokens s !! TokenKey v ty) as [t'|]; [|done].
  by destruct (token.IsExpired t' now).
Qed.

Lemma NoDup_filter_keepKey (key : tokenKey) (keys : list tokenKey) :
  NoDup keys -> NoDup (List.filter (memory.keepKey key) keys).
Proof.
  intros Hnd. apply NoDup_ListNoDup, List.NoDup_filter. by apply NoDup_ListNoDup.
Qed.

Lemma indexExact_Delete (v : string) (ty : TokenType) (s : memory.Storage) :
  indexExact s -> indexExact (fst (memory.Delete Background v ty s)).
Proof.
  intros Hs. unfold memory.Delete. cbn [ctx_Err].
  destruct (memory.tokens s !! TokenKey v ty) as [t|] eqn:Ht; [|done].
  assert (Hother : forall o keys,
    memory.validationID s !! o = Some keys -> o <> token.ValidationID t ->
    NoDup keys /\
    forall k, k ∈ keys ->
      exists t', delete (TokenKey v ty) (memory.tokens s) !! k = Some t' /\
                 token.ValidationID t' = o).
  { intros o keys Hk Ho. destruct (Hs o keys Hk) as [Hnd Hin]. split; [done|].
    intros k Hkin. destruct (Hin k Hkin) as (t' & Ht' & Hown).
    exists t'. split; [|done]. rewrite lookup_delete_ne; [done|].
    intros <-. rewrite Ht in Ht'. injection Ht' as <-. done. }
  destruct (memory.validationID s !! token.ValidationID t) as [keys0|] eqn:Hkeys0.
  - assert (Hsame : NoDup (List.filter (memory.keepKey (TokenKey v ty)) keys0) /\
      forall k, k ∈ List.filter (memory.keepKey (TokenKey v ty)) keys0 ->
        exists t', delete (TokenKey v ty) (memory.tokens s) !! k = Some t' /\
                   token.ValidationID t' = token.ValidationID t).
    { destruct (Hs _ _ Hkeys0) as [Hnd Hin]. split; [by apply NoDup_filter_keepKey|].
      intros k [Hkin Hne]%elem_of_filter_keepKey.
      destruct (Hin k Hkin) as (t' & Ht' & Hown).
      exists t'. split; [|done]. by rewrite lookup_delete_ne. }
    destruct (0 <? _); simpl; intros o keys Hk; simpl in *.
    + destruct (decide (token.ValidationID t = o)) as [<-|Ho].
      * rewrite lookup_insert_eq in Hk. by injection Hk as <-.
      * rewrite lookup_insert_ne in Hk by done. by apply Hother.
    + destruct (decide (token.ValidationID t = o)) as [<-|Ho].
      * by rewrite lookup_delete_eq in Hk.
      * rewrite lookup_delete_ne in Hk by done. by apply Hother.
  - simpl. intros o keys Hk. simpl in *. apply Hother; [done|].
    intros ->. by rewrite Hkeys0 in Hk.
Qed.

Lemma indexExact_DeleteByValidationID (o : string) (s : memory.Storage) :
  indexExact s -> indexExact (fst (memory.DeleteByValidationID Background o s)).
Proof.
  intros Hs. unfold memory.DeleteByValidationID. cbn [ctx_Err].
  case_decide; [done|].
  destruct (memory.validationID s !! o) as [keys0|] eqn:Hkeys0; [|done]. simpl.
  intros o' keys Hk. simpl in *.
  apply lookup_delete_Some in Hk as [Ho Hk].
  destruct (Hs o' keys Hk) as [Hnd Hin]. split; [done|].
  intros k Hkin. destruct (Hin k Hkin) as (t' & Ht' & Hown).
  exists t'. split; [|done]. rewrite lookup_fold_delete.
  destruct (decide (k ∈ keys0)) as [Hk0|_]; [|done].
  destruct (Hs o keys0 Hkeys0) as [_ Hin0].
  destruct (Hin0 k Hk0) as (t0 & Ht0 & Hown0).
  rewrite Ht' in Ht0. injection Ht0 as <-. congruence.
Qed.

(** *** Deletion by an empty validation ID *)

Lemma memory_DeleteByValidationID_empty (s : memory.Storage) :
  memory.DeleteByValidationID Background "" s = (s, Some ErrEmptyValidationID).
Proof. reflexivity. Qed.

(** *** Deletion by validation ID *)

Lemma memory_DeleteByValidationID_tokens (s : memory.Storage) (o : string) (k : tokenKey) :
  o <> "" ->
  memory.tokens (fst (memory.DeleteByValidationID Background o s)) !! k
  = if decide (k ∈ default [] (memory.validationID s !! o)) then None
    else memory.tokens s !! k.
Proof.
  intros Ho. unfold memory.DeleteByValidationID. simpl.
  case_decide; [done|].
  destruct (memory.validationID s !! o) as [keys|]; simpl.
  - apply lookup_fold_delete.
  - destruct (decide (k ∈ [])) as [Hin|_]; [by apply elem_of_nil in Hin | done].
Qed.

Lemma memory_Retrieve_tokens (s s' : memory.Storage) (now : time.Time) (k : tokenKey) :
  memory.tokens s' !! k = memory.tokens s !! k ->
  snd (memory.Retrieve Background now (value k) (typ k) s')
  = snd (memory.Retrieve Background now (value k) (typ k) s).
Proof.
  intros Heq. unfold memory.Retrieve. simpl. destruct k as [v ty]. simpl.
  rewrite Heq. destruct (memory.tokens s !! TokenKey v ty) as [t|]; [|done].
  by destruct (token.IsExpired t now).
Qed.

(** C5, counterexample.  After two tokens with the same value and kind were
    stored under owners "A" and "B", deleting owner "A" removes the token
    that is stored under owner "B". *)
Lemma DeleteByValidationID_other_owner_counterexample :
  ~ (forall (s s' : memory.Storage) (o : string),
       reachable s ->
       memory.DeleteByValidationID Background o s = (s', None) ->
       forall k t now,
         memory.tokens s !! k = Some t -> token.ValidationID t <> o ->
         snd (memory.Retrieve Background now (value k) (typ k) s')
         = snd (memory.Retrieve Background now (value k) (typ k) s)).
Proof.
  intros Hall.
  pose (tA := {| token.Value := "abc"; token.Typ := token.TypeLink;
                 token.CreatedAt := 1000; token.ValidUntil := 5000;
                 token.ValidationID := "A" |}).
  pose (tB := {| token.Value := "abc"; token.Typ := token.TypeLink;
                 token.CreatedAt := 1000; token.ValidUntil := 5000;
                 token.ValidationID := "B" |}).
  pose (s := fst (run [CallStore Background 1000 (Some tA);
                       CallStore Background 1000 (Some tB)] memory.New)).
  specialize (Hall s (fst (memory.DeleteByValidationID Background "A" s)) "A").
  specialize (Hall ltac:(by eexists) ltac:(vm_compute; reflexivity)).
  specialize (Hall (TokenKey "abc" token.TypeLink) tB 1000
                ltac:(vm_compute; reflexivity) ltac:(discriminate)).
  vm_compute in Hall. discriminate.
Qed.

(** C5, amended.  After [DeleteByValidationID(owner)] returns successfully
    on a reachable in-memory storage, every token that was stored under
    that owner, of either kind, is not found by [Retrieve]; a token stored
    under a different owner is still stored and retrieved as before,
    provided its (value, kind) key is not also listed under the deleted
    owner.  The call succeeds for every non-empty owner. *)
Theorem DeleteByValidationID_removes_owner (s : memory.Storage) (o : string) :
  reachable s ->
  o <> "" ->
  exists s',
    memory.DeleteByValidationID Background o s = (s', None) /\
    (forall k t now,
       memory.tokens s !! k = Some t -> token.ValidationID t = o ->
       memory.Retrieve Background now (value k) (typ k) s' = (s', Err ErrTokenNotFound)) /\
    (forall k t now,
       memory.tokens s !! k = Some t -> token.ValidationID t <> o ->
       k ∉ default [] (memory.validationID s !! o) ->
       memory.tokens s' !! k = Some t /\
       snd (memory.Retrieve Background now (value k) (typ k) s')
       = snd (memory.Retrieve Background now (value k) (typ k) s)).
Proof.
  intros Hr Ho. apply reachable_stored_indexed in Hr.
  exists (fst (memory.DeleteByValidationID Background o s)).
  split; [|split].
  - unfold memory.DeleteByValidationID. simpl. case_decide; [done|].
    by destruct (memory.validationID s !! o).
  - intros k t now Hk Hown.
    pose proof (memory_DeleteByValidationID_tokens s o k Ho) as Hl.
    destruct (Hr k t Hk) as (_ & keys & Hkeys & Hin).
    rewrite Hown in Hkeys. rewrite Hkeys in Hl. simpl in Hl.
    destruct (decide (k ∈ keys)); [|done].
    unfold memory.Retrieve. simpl. destruct k as [v ty]. simpl. by rewrite Hl.
  - intros k t now Hk Hown Hnin.
    pose proof (memory_DeleteByValidationID_tokens s o k Ho) as Hl.
    destruct (decide (k ∈ default [] (memory.validationID s !! o))); [done|].
    split; [by rewrite Hl|].
    apply memory_Retrieve_tokens. by rewrite Hl.
Qed.

Lemma DeleteByValidationID_removes_owner_witness :
  let t1 := {| token.Value := "link-1"; token.Typ := token.TypeLink;
               token.CreatedAt := 1000; token.ValidUntil := 5000;
               token.ValidationID := "val-1" |} in
  let t2 := {| token.Value := "1234"; token.Typ := token.TypeCode;
               token.CreatedAt := 1000; token.ValidUntil := 5000;
               token.ValidationID := "val-1" |} in
  let t3 := {| token.Value := "link-3"; token.Typ := token.TypeLink;
               token.CreatedAt := 1000; token.ValidUntil := 5000;
               token.ValidationID := "val-2" |} in
  let s := fst (run [CallStore Background 1000 (Some t1);
                     CallStore Background 1000 (Some t2);
                     CallStore Background 1000 (Some t3)] memory.New) in
  exists s',
    memory.DeleteByValidationID Background "val-1" s = (s', None) /\
    (forall k t now,
       memory.tokens s !! k = Some t -> token.ValidationID t = "val-1" ->
       memory.Retrieve Background now (value k) (typ k) s' = (s', Err ErrTokenNotFound)) /\
    (forall k t now,
       memory.tokens s !! k = Some t -> token.ValidationID t <> "val-1" ->
       k ∉ default [] (memory.validationID s !! "val-1") ->
       memory.tokens s' !! k = Some t /\
       snd (memory.Retrieve Background now (value k) (typ k) s')
       = snd (memory.Retrieve Background now (value k) (typ k) s)).
Proof.
  intros t1 t2 t3 s.
  apply (DeleteByValidationID_removes_owner s "val-1").
  - by eexists.
  - discriminate.
Defined.

(** *** Idempotent deletion *)


(** ** Keys of the Redis-backed storage *)

Lemma noColon_app_colon (a b : string) : noColon (a +:+ String ":" b) = false.
Proof.
  induction a as [|c a IH]; simpl; [done|].
  rewrite IH. apply andb_false_r.
Qed.

Lemma app_colon_inj (v1 v2 d1 d2 : string) :
  noColon d1 = true -> noColon d2 = true ->
  v1 +:+ String ":" d1 = v2 +:+ String ":" d2 -> v1 = v2 /\ d1 = d2.
Proof.
  revert v2. induction v1 as [|c v1 IH]; intros [|c' v2] H1 H2 Heq; simpl in Heq.
  - by injection Heq as ->.
  - injection Heq as <- ->. by rewrite noColon_app_colon in H1.
  - injection Heq as -> <-. by rewrite noColon_app_colon in H2.
  - injection Heq as -> Heq. destruct (IH v2 H1 H2 Heq) as [-> ->]. done.
Qed.

Lemma pretty_N_go_noColon (x : N) (s : string) :
  noColon s = true -> noColon (pretty_N_go x s) = true.
Proof.
  revert s. induction (N.lt_wf_0 x) as [x _ IH]; intros s Hs.
  assert (x = 0 \/ 0 < x)%N as [->|Hpos] by lia.
  - by rewrite pretty_N_go_0.
  - rewrite pretty_N_go_step by done. apply IH.
    + by apply N.div_lt.
    + simpl. rewrite Hs, andb_true_r.
      unfold pretty_N_char. by repeat case_match.
Qed.

Lemma pretty_N_noColon (x : N) : noColon (pretty x) = true.
Proof.
  unfold pretty, pretty_N. case_decide; [done|]. by apply pretty_N_go_noColon.
Qed.

Lemma pretty_Z_noColon (x : Z) : noColon (pretty x) = true.
Proof.
  destruct x as [|p|p]; [done|..].
  - apply (pretty_N_noColon (Npos p)).
  - change (pretty (Z.neg p)) with ("-" +:+ pretty (Npos p)). simpl.
    apply (pretty_N_noColon (Npos p)).
Qed.

Lemma tokenKeyOf_inj (v1 v2 : string) (ty1 ty2 : TokenType) :
  redis.tokenKeyOf v1 ty1 = redis.tokenKeyOf v2 ty2 -> v1 = v2 /\ ty1 = ty2.
Proof.
  unfold redis.tokenKeyOf. simpl. intros [= Heq].
  apply app_colon_inj in Heq as [-> Hp]; auto using pretty_Z_noColon.
  split; [done|]. by apply (inj pretty).
Qed.

Lemma validationKeyOf_inj (o1 o2 : string) :
  redis.validationKeyOf o1 = redis.validationKeyOf o2 -> o1 = o2.
Proof. unfold redis.validationKeyOf. simpl. intros [= Heq]. exact Heq. Qed.

Lemma tokenKeyOf_validationKeyOf (v : string) (ty : TokenType) (o : string) :
  redis.tokenKeyOf v ty <> redis.validationKeyOf o.
Proof. unfold redis.tokenKeyOf, redis.validationKeyOf. simpl. discriminate. Qed.

Lemma validationKeyOf_tokenKeyOf (o v : string) (ty : TokenType) :
  redis.validationKeyOf o <> redis.tokenKeyOf v ty.
Proof. unfold redis.tokenKeyOf, redis.validationKeyOf. simpl. discriminate. Qed.

(** ** Expiry arithmetic of the server *)

Lemma clock_mono (now horizon : time.Time) :
  now <= horizon -> goredis.clock now <= goredis.clock horizon.
Proof. intros Hle. unfold goredis.clock. by apply Z.div_le_mono. Qed.

Lemma Sub_exact (t u : time.Time) :
  time.minDuration <= t - u <= time.maxDuration -> time.Sub t u = t - u.
Proof. unfold time.Sub. lia. Qed.

Lemma Set_expiry_survives (now horizon vu : time.Time) :
  now <= horizon -> horizon + time.Second <= vu ->
  vu - now <= time.maxDuration ->
  let ttl := time.Sub vu now in
  (0 <? ttl) = true /\
  goredis.clock horizon
  <= goredis.clock now
     + (if goredis.usePrecise ttl then goredis.formatMs ttl
        else 1000 * goredis.formatSec ttl).
Proof.
  intros Hnow Hvu Hmax ttl.
  assert (Httl : ttl = vu - now).
  { apply Sub_exact. unfold time.minDuration, time.Second in *. lia. }
  assert (Hge : time.Second <= ttl) by lia.
  clearbody ttl. split; [unfold time.Second in *; lia|].
  unfold goredis.clock, goredis.usePrecise, goredis.formatMs, goredis.formatSec.
  unfold time.Second, time.Millisecond in *.
  destruct (Z.ltb_spec ttl 1000000000) as [?|_]; [lia|].
  destruct (Z.ltb_spec ttl 1000000) as [?|_]; [lia|].
  rewrite andb_false_r. simpl.
  destruct (Z.eqb_spec (Z.rem ttl 1000000000) 0) as [Hmod|Hmod]; simpl;
    Z.to_euclidean_division_equations; lia.
Qed.

Lemma ExpireAt_survives (now horizon vu : time.Time) :
  now <= horizon -> horizon + time.Second <= vu ->
  (vu / time.Second * 1000 <=? goredis.clock now) = false /\
  goredis.clock horizon <= vu / time.Second * 1000.
Proof.
  intros Hnow Hvu. unfold goredis.clock, time.Second, time.Millisecond in *.
  split; [apply Z.leb_gt|]; Z.div_mod_to_equations; lia.
Qed.

(** ** The Redis-backed storage against the in-memory storage *)

Section SimulationProofs.
Context {codec : JSON}.
Variable horizon : time.Time.

Arguments redis.tokenKeyOf : simpl never.
Arguments redis.validationKeyOf : simpl never.

Lemma live_survives (db : gmap string goredis.entry) (now : time.Time)
    (key : string) (v : goredis.value) (exp : option Z) :
  now <= horizon -> survives horizon exp ->
  db !! key = Some (goredis.Entry v exp) ->
  goredis.live db now key = Some (goredis.Entry v exp).
Proof.
  intros Hnow Hs Hk. unfold goredis.live, goredis.expired. rewrite Hk. simpl.
  destruct exp as [w|]; [|done]. simpl in Hs.
  pose proof (clock_mono now horizon Hnow).
  destruct (Z.ltb_spec w (goredis.clock now)); [lia | done].
Qed.

Lemma live_None (db : gmap string goredis.entry) (now : time.Time) (key : string) :
  db !! key = None -> goredis.live db now key = None.
Proof. intros Hk. unfold goredis.live. by rewrite Hk. Qed.

Lemma keyString_inj (k1 k2 : tokenKey) : keyString k1 = keyString k2 -> k1 = k2.
Proof.
  destruct k1 as [v1 t1], k2 as [v2 t2]. unfold keyString. simpl.
  intros Heq. by apply tokenKeyOf_inj in Heq as [-> ->].
Qed.

Lemma elem_of_keyStrings (k : tokenKey) (keys : list tokenKey) :
  keyString k ∈ (list_to_set (keyString <$> keys) : gset string) <-> k ∈ keys.
Proof.
  rewrite elem_of_list_to_set, list_elem_of_fmap. split.
  - intros (k' & Heq & Hin). by apply keyString_inj in Heq as ->.
  - intros Hin. eauto.
Qed.

Lemma validationKey_not_member (o : string) (keys : list tokenKey) :
  redis.validationKeyOf o ∉ (list_to_set (keyString <$> keys) : gset string).
Proof.
  rewrite elem_of_list_to_set, list_elem_of_fmap. intros (k & Heq & _).
  symmetry in Heq. by apply tokenKeyOf_validationKeyOf in Heq.
Qed.

Lemma keyStrings_empty (keys : list tokenKey) :
  (list_to_set (keyString <$> keys) : gset string) = ∅ <-> keys = [].
Proof.
  split; [|by intros ->].
  destruct keys as [|k keys]; [done|]. simpl. intros Heq.
  assert (keyString k ∈ (∅ : gset string)) as Hin by (rewrite <- Heq; set_solver).
  by apply not_elem_of_empty in Hin.
Qed.

Lemma keyStrings_filter (key : tokenKey) (keys : list tokenKey) :
  (list_to_set (keyString <$> List.filter (memory.keepKey key) keys) : gset string)
  = list_to_set (keyString <$> keys) ∖ {[keyString key]}.
Proof.
  apply set_eq. intros x.
  rewrite elem_of_difference, !elem_of_list_to_set, !list_elem_of_fmap,
    elem_of_singleton.
  split.
  - intros (k & -> & Hin). apply elem_of_filter_keepKey in Hin as [Hin Hne].
    split; [eauto|]. intros Heq. by apply keyString_inj in Heq.
  - intros [(k & -> & Hin) Hne]. exists k. split; [done|].
    apply elem_of_filter_keepKey. split; [done|]. by intros ->.
Qed.

Lemma keyStrings_snoc (key : tokenKey) (keys : list tokenKey) :
  (list_to_set (keyString <$> (keys ++ [key])%list) : gset string)
  = list_to_set (keyString <$> keys) ∪ {[keyString key]}.
Proof.
  rewrite fmap_app, list_to_set_app_L. simpl. by rewrite union_empty_r_L.
Qed.

Lemma sim_Store ctx now t (m : memory.Storage) (db : gmap string goredis.entry) :
  sim horizon m db -> admissible horizon (CallStore ctx now t) ->
  snd (memory.Store ctx t m) = snd (redis.Store ctx now t db) /\
  sim horizon (fst (memory.Store ctx t m)) (fst (redis.Store ctx now t db)).
Proof.
  intros [Htok Hidx] [Hnow Hadm]. simpl in Hnow.
  unfold memory.Store, redis.Store.
  destruct (ctx_Err ctx); [by split|].
  destruct (token.Validate t) as [e|], t as [t|]; try by split.
  destruct Hadm as (Hvu & Hmax & [d Hd]). rewrite Hd.
  assert (Hlive : horizon < token.ValidUntil t) by (unfold time.Second in Hvu; lia).
  unfold time.Before. destruct (Z.ltb_spec (token.ValidUntil t) now) as [?|_]; [lia|].
  destruct (Set_expiry_survives now horizon (token.ValidUntil t)) as [Hpos Hset];
    [done..|].
  destruct (ExpireAt_survives now horizon (token.ValidUntil t)) as [Hle Hexp];
    [done..|].
  set (key := redis.tokenKeyOf (token.Value t) (token.Typ t)).
  set (vkey := redis.validationKeyOf (token.ValidationID t)).
  unfold goredis.Set_. rewrite Hpos.
  set (exp1 := Some _).
  set (db1 := <[key := goredis.Entry (goredis.VString d) exp1]> db).
  assert (Hne : key <> vkey) by apply tokenKeyOf_validationKeyOf.
  assert (Hdb1 : db1 !! vkey = db !! vkey) by (unfold db1; by rewrite lookup_insert_ne).
  pose proof (Hidx (token.ValidationID t)) as Hown. fold vkey in Hown.
  unfold goredis.SAdd.
  assert (Hsadd : exists exp2,
    survives horizon exp2 /\
    match goredis.live db1 now vkey with
    | Some (goredis.Entry (goredis.VSet members) exp) =>
        (<[vkey := goredis.Entry (goredis.VSet (members ∪ {[key]})) exp]> db1, None)
    | Some (goredis.Entry (goredis.VString _) _) => (db1, Some ErrRedisWrongType)
    | None => (<[vkey := goredis.Entry (goredis.VSet {[key]}) None]> db1, None)
    end
    = (<[vkey := goredis.Entry
                   (goredis.VSet (list_to_set
                      (keyString <$> (default [] (memory.validationID m
                                                   !! token.ValidationID t)
                                        ++ [TokenKey (token.Value t) (token.Typ t)])%list)))
                   exp2]> db1, @None error)).
  { destruct (memory.validationID m !! token.ValidationID t) as [keys|].
    - destruct Hown as (_ & exp & Hl & Hs). exists exp. split; [done|].
      rewrite (live_survives db1 now vkey _ exp Hnow Hs) by (by rewrite Hdb1).
      by rewrite keyStrings_snoc.
    - exists None. split; [done|].
      rewrite live_None by (by rewrite Hdb1). simpl.
      do 3 f_equal. unfold keyString. simpl. by rewrite union_empty_r_L. }
  destruct Hsadd as (exp2 & Hs2 & ->).
  set (members := list_to_set _).
  set (db2 := <[vkey := _]> db1).
  unfold goredis.ExpireAt.
  rewrite (live_survives db2 now vkey (goredis.VSet members) exp2 Hnow Hs2)
    by (unfold db2; by rewrite lookup_insert_eq).
  rewrite Hle. simpl. split; [done|]. split.
  - intros v ty. cbn [memory.tokens memory.validationID].
    destruct (decide (TokenKey v ty = TokenKey (token.Value t) (token.Typ t)))
      as [[= -> ->]|Hk].
    + rewrite lookup_insert_eq. split; [done|].
      exists d, exp1. split; [done|]. split; [|exact Hset].
      fold key. rewrite lookup_insert_ne by done. unfold db2.
      rewrite lookup_insert_ne by done. unfold db1. by rewrite lookup_insert_eq.
    + rewrite lookup_insert_ne by done.
      assert (redis.tokenKeyOf v ty <> key).
      { intros Heq. apply tokenKeyOf_inj in Heq as [-> ->]. done. }
      assert (redis.tokenKeyOf v ty <> vkey) by apply tokenKeyOf_validationKeyOf.
      rewrite lookup_insert_ne by done. unfold db2.
      rewrite lookup_insert_ne by done. unfold db1.
      rewrite lookup_insert_ne by done. apply Htok.
  - intros o. cbn [memory.tokens memory.validationID].
    destruct (decide (token.ValidationID t = o)) as [<-|Ho].
    + rewrite lookup_insert_eq. split; [by destruct (default _ _)|].
      exists (Some (token.ValidUntil t / time.Second * 1000)).
      fold vkey. rewrite lookup_insert_eq. done.
    + rewrite lookup_insert_ne by done.
      assert (vkey <> redis.validationKeyOf o).
      { intros Heq. by apply validationKeyOf_inj in Heq. }
      assert (key <> redis.validationKeyOf o) by apply tokenKeyOf_validationKeyOf.
      rewrite lookup_insert_ne by done. unfold db2.
      rewrite lookup_insert_ne by done. unfold db1.
      rewrite lookup_insert_ne by done. apply Hidx.
Qed.

Lemma sim_Retrieve ctx now v ty (m : memory.Storage) (db : gmap string goredis.entry) :
  sim horizon m db -> now <= horizon ->
  snd (memory.Retrieve ctx now v ty m) = snd (redis.Retrieve ctx now v ty db) /\
  sim horizon (fst (memory.Retrieve ctx now v ty m)) (fst (redis.Retrieve ctx now v ty db)).
Proof.
  intros Hsim Hnow. pose proof Hsim as [Htok _].
  unfold memory.Retrieve, redis.Retrieve.
  destruct (ctx_Err ctx); [by split|].
  specialize (Htok v ty). unfold goredis.Get.
  destruct (memory.tokens m !! TokenKey v ty) as [t|].
  - destruct Htok as (Hvu & d & exp & Hd & Hl & Hs).
    rewrite (live_survives db now _ _ exp Hnow Hs Hl).
    rewrite (json_roundtrip t d Hd).
    unfold token.IsExpired, time.After.
    destruct (Z.ltb_spec (token.ValidUntil t) now); [lia|]. by split.
  - rewrite (live_None db now _ Htok). simpl. by split.
Qed.

Lemma sim_Delete ctx now v ty (m : memory.Storage) (db : gmap string goredis.entry) :
  sim horizon m db -> now <= horizon ->
  snd (memory.Delete ctx v ty m) = snd (redis.Delete ctx now v ty db) /\
  sim horizon (fst (memory.Delete ctx v ty m)) (fst (redis.Delete ctx now v ty db)).
Proof.
  intros Hsim Hnow. pose proof Hsim as [Htok Hidx].
  unfold memory.Delete, redis.Delete.
  destruct (ctx_Err ctx); [by split|].
  pose proof (Htok v ty) as Hk. unfold goredis.Get.
  destruct (memory.tokens m !! TokenKey v ty) as [t|] eqn:Ht.
  2:{ rewrite (live_None db now _ Hk). simpl. by split. }
  destruct Hk as (Hvu & d & exp & Hd & Hl & Hs).
  rewrite (live_survives db now _ _ exp Hnow Hs Hl).
  rewrite (json_roundtrip t d Hd).
  set (key := redis.tokenKeyOf v ty).
  set (vkey := redis.validationKeyOf (token.ValidationID t)).
  assert (Hne : key <> vkey) by apply tokenKeyOf_validationKeyOf.
  assert (Htoks : forall db1,
    (forall v' ty', redis.tokenKeyOf v' ty' <> key ->
       db1 !! redis.tokenKeyOf v' ty' = db !! redis.tokenKeyOf v' ty') ->
    forall v' ty',
      match delete (TokenKey v ty) (memory.tokens m) !! TokenKey v' ty' with
      | Some t0 =>
          horizon < token.ValidUntil t0 /\
          exists d0 exp0,
            json_Marshal t0 = Some d0 /\
            goredis.Del db1 key !! redis.tokenKeyOf v' ty'
            = Some (goredis.Entry (goredis.VString d0) exp0) /\
            survives horizon exp0
      | None => goredis.Del db1 key !! redis.tokenKeyOf v' ty' = None
      end).
  { intros db1 Hdb1 v' ty'. unfold goredis.Del.
    destruct (decide (TokenKey v' ty' = TokenKey v ty)) as [[= -> ->]|Hk].
    - rewrite lookup_delete_eq. fold key. by rewrite lookup_delete_eq.
    - assert (redis.tokenKeyOf v' ty' <> key).
      { intros Heq. apply tokenKeyOf_inj in Heq as [-> ->]. done. }
      rewrite !lookup_delete_ne by done. rewrite Hdb1 by done. apply Htok. }
  assert (Hidx' : forall db1 o,
    db1 !! redis.validationKeyOf o = db !! redis.validationKeyOf o ->
    goredis.Del db1 key !! redis.validationKeyOf o = db !! redis.validationKeyOf o).
  { intros db1 o Heq. unfold goredis.Del. rewrite lookup_delete_ne; [done|].
    apply tokenKeyOf_validationKeyOf. }
  pose proof (Hidx (token.ValidationID t)) as Hown. fold vkey in Hown.
  unfold goredis.SRem.
  destruct (memory.validationID m !! token.ValidationID t) as [keys|] eqn:Hkeys.
  - destruct Hown as (Hnil & exp' & Hl' & Hs').
    rewrite (live_survives db now _ _ exp' Hnow Hs' Hl').
    pose proof (keyStrings_filter (TokenKey v ty) keys) as Hfil.
    change (keyString (TokenKey v ty)) with key in Hfil.
    rewrite <- Hfil.
    destruct (List.filter (memory.keepKey (TokenKey v ty)) keys) as [|k0 newKeys]
      eqn:Hnew.
    + simpl. destruct (decide (∅ = ∅)) as [_|Hx]; [|done]. simpl.
      split; [done|]. split; cbn [memory.tokens memory.validationID].
      * apply Htoks. intros v' ty' Hx. rewrite lookup_delete_ne; [done|].
        intros Heq. symmetry in Heq. by apply tokenKeyOf_validationKeyOf in Heq.
      * intros o. destruct (decide (token.ValidationID t = o)) as [<-|Ho].
        -- rewrite lookup_delete_eq. fold vkey. unfold goredis.Del.
           rewrite lookup_delete_ne by done. by rewrite lookup_delete_eq.
        -- rewrite lookup_delete_ne by done. rewrite Hidx'; [apply Hidx|].
           rewrite lookup_delete_ne; [done|].
           intros Heq. by apply validationKeyOf_inj in Heq.
    + destruct (decide (list_to_set (keyString <$> k0 :: newKeys) = (∅ : gset string)))
        as [Hx|_]; [by apply keyStrings_empty in Hx|].
      change (0 <? Z.of_nat (length (k0 :: newKeys))) with true. simpl.
      split; [done|]. split; cbn [memory.tokens memory.validationID].
      * apply Htoks. intros v' ty' Hx. rewrite lookup_insert_ne; [done|].
        intros Heq. symmetry in Heq. by apply tokenKeyOf_validationKeyOf in Heq.
      * intros o. destruct (decide (token.ValidationID t = o)) as [<-|Ho].
        -- rewrite lookup_insert_eq. split; [done|]. exists exp'.
           fold vkey. unfold goredis.Del.
           rewrite lookup_delete_ne by done. by rewrite lookup_insert_eq.
        -- rewrite lookup_insert_ne by done. rewrite Hidx'; [apply Hidx|].
           rewrite lookup_insert_ne; [done|].
           intros Heq. by apply validationKeyOf_inj in Heq.
  - rewrite (live_None db now _ Hown). simpl.
    split; [done|]. split; cbn [memory.tokens memory.validationID].
    + by apply Htoks.
    + intros o. rewrite Hidx' by done. apply Hidx.
Qed.

Lemma lookup_DelAll (db : gmap string goredis.entry) (keys : list string) (k : string) :
  goredis.DelAll db keys !! k = if decide (k ∈ keys) then None else db !! k.
Proof. unfold goredis.DelAll, goredis.Del. apply lookup_fold_delete. Qed.

Lemma sim_DeleteByValidationID ctx now o (m : memory.Storage)
    (db : gmap string goredis.entry) :
  sim horizon m db -> now <= horizon ->
  snd (memory.DeleteByValidationID ctx o m)
  = snd (redis.DeleteByValidationID ctx now o db) /\
  sim horizon (fst (memory.DeleteByValidationID ctx o m))
    (fst (redis.DeleteByValidationID ctx now o db)).
Proof.
  intros Hsim Hnow. pose proof Hsim as [Htok Hidx].
  unfold memory.DeleteByValidationID, redis.DeleteByValidationID.
  destruct (ctx_Err ctx); [by split|].
  case_decide; [by split|].
  pose proof (Hidx o) as Hown. unfold goredis.SMembers.
  destruct (memory.validationID m !! o) as [keys|] eqn:Hkeys.
  2:{ rewrite (live_None db now _ Hown). simpl. by split. }
  destruct Hown as (Hnil & exp & Hl & Hs).
  rewrite (live_survives db now _ _ exp Hnow Hs Hl).
  set (members := list_to_set (keyString <$> keys) : gset string).
  destruct (decide (length (elements members) = 0%nat)) as [Hlen|_].
  { apply nil_length_inv, elements_empty_inv, leibniz_equiv in Hlen.
    by apply keyStrings_empty in Hlen. }
  simpl. split; [done|]. split; cbn [memory.tokens memory.validationID].
  - intros v ty. rewrite lookup_fold_delete. unfold goredis.Del.
    rewrite lookup_delete_ne by apply validationKeyOf_tokenKeyOf.
    rewrite lookup_DelAll.
    destruct (decide (TokenKey v ty ∈ keys)) as [Hin|Hin],
      (decide (redis.tokenKeyOf v ty ∈ elements members)) as [Hin'|Hin'];
      try done.
    + exfalso. apply Hin'. apply elem_of_elements.
      by apply (elem_of_keyStrings (TokenKey v ty)).
    + exfalso. apply Hin. apply elem_of_elements in Hin'.
      by apply (elem_of_keyStrings (TokenKey v ty)) in Hin'.
    + apply Htok.
  - intros o'. unfold goredis.Del.
    destruct (decide (o = o')) as [<-|Ho].
    + by rewrite !lookup_delete_eq.
    + rewrite !lookup_delete_ne; [|by intros Heq; apply validationKeyOf_inj in Heq|done].
      rewrite lookup_DelAll.
      destruct (decide (redis.validationKeyOf o' ∈ elements members)) as [Hin|_].
      * apply elem_of_elements in Hin. by apply validationKey_not_member in Hin.
      * apply Hidx.
Qed.

Lemma sim_New : sim horizon memory.New ∅.
Proof. split; intros; simpl; by rewrite !lookup_empty. Qed.

Lemma sim_call (c : Call) (m : memory.Storage) (db : gmap string goredis.entry) :
  sim horizon m db -> admissible horizon c ->
  snd (call c m) = snd (call c db) /\
  sim horizon (fst (call c m)) (fst (call c db)).
Proof.
  intros Hsim Hadm. pose proof Hadm as [Hnow _].
  destruct c as [ctx now t|ctx now v ty|ctx now v ty|ctx now o]; simpl in *.
  - destruct (sim_Store ctx now t m db Hsim Hadm) as [Ho Hs].
    destruct (memory.Store ctx t m), (redis.Store ctx now t db). simpl in *.
    by subst.
  - destruct (sim_Retrieve ctx now v ty m db Hsim Hnow) as [Ho Hs].
    destruct (memory.Retrieve ctx now v ty m), (redis.Retrieve ctx now v ty db).
    simpl in *. by subst.
  - destruct (sim_Delete ctx now v ty m db Hsim Hnow) as [Ho Hs].
    destruct (memory.Delete ctx v ty m), (redis.Delete ctx now v ty db).
    simpl in *. by subst.
  - destruct (sim_DeleteByValidationID ctx now o m db Hsim Hnow) as [Ho Hs].
    destruct (memory.DeleteByValidationID ctx o m),
      (redis.DeleteByValidationID ctx now o db).
    simpl in *. by subst.
Qed.

Lemma sim_run (calls : list Call) (m : memory.Storage) (db : gmap string goredis.entry) :
  sim horizon m db -> Forall (admissible horizon) calls ->
  snd (run calls m) = snd (run calls db) /\
  sim horizon (fst (run calls m)) (fst (run calls db)).
Proof.
  revert m db. induction calls as [|c calls IH]; intros m db Hsim Hall; simpl.
  - by split.
  - apply Forall_cons in Hall as [Hc Hall].
    destruct (sim_call c m db Hsim Hc) as [Ho Hs].
    destruct (call c m) as [m1 o1], (call c db) as [db1 o2]. simpl in *.
    destruct (IH m1 db1 Hs Hall) as [Hos Hs'].
    destruct (run calls m1), (run calls db1). simpl in *. by subst.
Qed.

End SimulationProofs.


(** *** What [Store] rejects *)

Lemma redis_Store_past {codec : JSON} (now : time.Time) (t : token.Token)
    (db : gmap string goredis.entry) :
  token.ValidUntil t < now ->
  exists e,
    redis.Store Background now (Some t) db = (db, Some e) /\
    (token.Value t <> "" -> token.ValidationID t <> "" ->
     is_Some (json_Marshal t) -> errors_Is e ErrInvalidToken = true).
Proof.
  intros Hpast. unfold redis.Store. cbn [ctx_Err].
  destruct (token.Validate (Some t)) as [e|] eqn:Hval.
  - eexists. split; [done|]. intros Hv Ho _. revert Hval.
    unfold token.Validate. repeat case_decide; try done.
    destruct (time.IsZero _); [|done]. by intros [= <-].
  - destruct (json_Marshal t) as [d|].
    + unfold time.Before. destruct (Z.ltb_spec (token.ValidUntil t) now); [|lia].
      eexists. split; [done|]. done.
    + eexists. split; [done|]. by intros _ _ [? ?].
Qed.

(** C1, amended.  In [memory.Storage] and in [redis.Storage], [Store]
    fails and leaves the store unchanged when the token's value is empty
    (the error is [ErrEmptyTokenValue]), when its validation ID is empty
    ([ErrEmptyValidationID]) and when its [ValidUntil] is unset (the error
    is an [ErrInvalidToken]).  [redis.Storage] also fails, leaving the store
    unchanged, when [ValidUntil] is before the clock reading of the call,
    with [ErrInvalidToken] for a token that passes the other checks; so it
    rejects a token built with a negative TTL, or with a zero TTL once the
    clock has advanced.  [memory.Storage] accepts and persists a token whose
    [ValidUntil] is set, whether it has passed or not. *)
Theorem Store_rejects_invalid {codec : JSON} (now : time.Time) (t : token.Token)
    (s : memory.Storage) (db : gmap string goredis.entry) :
  (token.Value t = "" ->
   memory.Store Background (Some t) s
     = (s, Some (Wrap "token validation failed" ErrEmptyTokenValue)) /\
   redis.Store Background now (Some t) db
     = (db, Some (Wrap "token validation failed" ErrEmptyTokenValue))) /\
  (token.Value t <> "" -> token.ValidationID t = "" ->
   memory.Store Background (Some t) s
     = (s, Some (Wrap "token validation failed" ErrEmptyValidationID)) /\
   redis.Store Background now (Some t) db
     = (db, Some (Wrap "token validation failed" ErrEmptyValidationID))) /\
  (token.Value t <> "" -> token.ValidationID t <> "" -> token.ValidUntil t = 0 ->
   exists e,
     errors_Is e ErrInvalidToken = true /\
     memory.Store Background (Some t) s = (s, Some e) /\
     redis.Store Background now (Some t) db = (db, Some e)) /\
  (token.ValidUntil t < now ->
   exists e,
     redis.Store Background now (Some t) db = (db, Some e) /\
     (token.Value t <> "" -> token.ValidationID t <> "" ->
      is_Some (json_Marshal t) -> errors_Is e ErrInvalidToken = true)) /\
  (forall v ty o ttl now0,
     t = token.New v ty o ttl now0 ->
     v <> "" -> o <> "" -> is_Some (json_Marshal t) ->
     ttl <= 0 -> now0 <= now -> (ttl < 0 \/ now0 < now) ->
     exists e,
       redis.Store Background now (Some t) db = (db, Some e) /\
       errors_Is e ErrInvalidToken = true) /\
  (token.Value t <> "" -> token.ValidationID t <> "" -> token.ValidUntil t <> 0 ->
   exists s',
     memory.Store Background (Some t) s = (s', None) /\
     memory.tokens s' !! TokenKey (token.Value t) (token.Typ t) = Some t).
Proof.
  repeat apply conj.
  - intros Hv. unfold memory.Store, redis.Store, token.Validate. simpl.
    by case_decide.
  - intros Hv Ho. unfold memory.Store, redis.Store, token.Validate. simpl.
    by repeat case_decide.
  - intros Hv Ho Hz. unfold memory.Store, redis.Store, token.Validate. simpl.
    repeat case_decide; try done. rewrite Hz. simpl. eexists. by repeat split.
  - apply redis_Store_past.
  - intros v ty o ttl now0 -> Hv Ho Hm Httl Hnow Hadv.
    destruct (redis_Store_past now (token.New v ty o ttl now0) db) as (e & He & Hk).
    { simpl. unfold time.Add. lia. }
    exists e. split; [done|]. by apply Hk.
  - intros Hv Ho Hz. rewrite memory_Store_valid by done. eexists. split; [done|].
    simpl. by rewrite lookup_insert_eq.
Qed.

(** C1, counterexample.  The in-memory [Store] accepts and persists a token
    whose [ValidUntil] has passed at the time of the call. *)
Lemma memory_Store_accepts_past_token :
  ~ (forall (s : memory.Storage) (now : time.Time) (t : token.Token),
       token.Value t = "" \/ token.ValidationID t = "" \/
       token.ValidUntil t = 0 \/ token.ValidUntil t < now ->
       exists e,
         memory.Store Background (Some t) s = (s, Some e) /\
         errors_Is e ErrInvalidToken = true).
Proof.
  intros Hall.
  destruct (Hall memory.New 3000
              {| token.Value := "abc"; token.Typ := token.TypeLink;
                 token.CreatedAt := 1000; token.ValidUntil := 2000;
                 token.ValidationID := "val-1" |}) as (e & He & _).
  - right. right. right. simpl. lia.
  - vm_compute in He. discriminate.
Qed.

Lemma redis_DeleteByValidationID_empty {codec : JSON} (now : time.Time)
    (db : gmap string goredis.entry) :
  redis.DeleteByValidationID Background now "" db = (db, Some ErrEmptyValidationID).
Proof. reflexivity. Qed.

Lemma RedisStorage_DeleteByValidationID_empty {codec : JSON} (now : time.Time)
    (db : gmap string goredis.entry) :
  RedisStorage.DeleteByValidationID Background now "" db
  = (db, Some ErrEmptyValidationID).
Proof. reflexivity. Qed.

(** The implementations of storage.go and redis_storage.go validate with
    [validateToken]. *)

(** X26.  [MemoryStorage.Store] of storage.go accepts and stores every
    token with a non-empty value and a non-empty validation ID, also one
    whose [ValidUntil] is unset or has passed. *)
Lemma MemoryStorage_Store_valid (t : token.Token) (s : MemoryStorage.MemoryStorage) :
  token.Value t <> "" -> token.ValidationID t <> "" ->
  exists s',
    MemoryStorage.Store Background (Some t) s = (s', None) /\
    MemoryStorage.tokens s' !! TokenKey (token.Value t) (token.Typ t) = Some t.
Proof.
  intros Hv Ho. unfold MemoryStorage.Store, token.validateToken. cbn [ctx_Err].
  repeat case_decide; try done. eexists. split; [done|].
  simpl. by rewrite lookup_insert_eq.
Qed.

(** X25.  [RedisStorage.Store] of redis_storage.go rejects every token
    whose [ValidUntil] is not after the clock reading of the call and
    leaves the keyspace unchanged; the error is [ErrInvalidToken] for a
    token that passes [validateToken] and can be marshalled. *)
Lemma RedisStorage_Store_not_after {codec : JSON} (now : time.Time) (t : token.Token)
    (db : gmap string goredis.entry) :
  token.ValidUntil t <= now ->
  exists e,
    RedisStorage.Store Background now (Some t) db = (db, Some e) /\
    (token.Value t <> "" -> token.ValidationID t <> "" ->
     is_Some (json_Marshal t) -> e = ErrInvalidToken).
Proof.
  intros Hpast. unfold RedisStorage.Store. cbn [ctx_Err].
  destruct (token.validateToken (Some t)) as [e|] eqn:Hval.
  - eexists. split; [done|]. intros Hv Ho _. revert Hval.
    unfold token.validateToken. by repeat case_decide.
  - destruct (json_Marshal t) as [d|].
    + assert (Httl : (time.Until now (token.ValidUntil t) <=? 0) = true).
      { apply Z.leb_le. unfold time.Until, time.Sub, time.minDuration, time.maxDuration.
        lia. }
      rewrite Httl. eexists. split; done.
    + eexists. split; [done|]. by intros _ _ [? ?].
Qed.

(** *** Idempotent deletion on the Redis-backed storage *)

(** X24.  In [redis.Storage], [Delete] and [DeleteByValidationID] are
    idempotent: a second call with the same arguments, at the same reading
    of the clock, returns what the first call returned and leaves the
    keyspace as the first call left it. *)
Lemma redis_delete_idempotent {codec : JSON} (ctx : Context) (now : time.Time)
    (v : string) (ty : TokenType) (o : string) (db : gmap string goredis.entry) :
  (forall db1 r1, redis.Delete ctx now v ty db = (db1, r1) ->
     redis.Delete ctx now v ty db1 = (db1, r1)) /\
  (forall db1 r1, redis.DeleteByValidationID ctx now o db = (db1, r1) ->
     redis.DeleteByValidationID ctx now o db1 = (db1, r1)).
Proof.
  split; intros db1 r1.
  - unfold redis.Delete.
    destruct (ctx_Err ctx) as [e|]; [by intros [= <- <-]|].
    unfold goredis.Get.
    destruct (goredis.live db now (redis.tokenKeyOf v ty)) as [[[d|members] exp]|] eqn:Hl.
    + destruct (json_Unmarshal d) as [t|] eqn:Hd.
      * destruct (goredis.SRem db now _ _) as [db2 [e|]] eqn:Hrem.
        -- assert (db2 = db) as ->.
           { revert Hrem. unfold goredis.SRem.
             destruct (goredis.live db now
                         (redis.validationKeyOf (token.ValidationID t)))
               as [[[?|?] ?]|]; [| destruct (decide _) |]; intros ?; congruence. }
           destruct (decide (e = ErrRedisNil)) as [He|He].
           ++ intros [= <- <-]. unfold goredis.live, goredis.Del.
              by rewrite lookup_delete_eq.
           ++ intros [= <- <-]. by rewrite Hl, Hd, Hrem, decide_False.
        -- intros [= <- <-]. unfold goredis.live, goredis.Del.
           by rewrite lookup_delete_eq.
      * intros [= <- <-]. by rewrite Hl, Hd.
    + simpl. intros [= <- <-]. by rewrite Hl.
    + simpl. intros [= <- <-]. by rewrite Hl.
  - unfold redis.DeleteByValidationID.
    destruct (ctx_Err ctx) as [e|]; [by intros [= <- <-]|].
    case_decide; [by intros [= <- <-]|].
    unfold goredis.SMembers.
    destruct (goredis.live db now (redis.validationKeyOf o)) as [[[d|members] exp]|] eqn:Hl.
    + simpl. intros [= <- <-]. by rewrite Hl.
    + destruct (decide (length (elements members) = 0%nat)) as [Hlen|Hlen].
      * intros [= <- <-]. by rewrite Hl, decide_True.
      * intros [= <- <-]. unfold goredis.live, goredis.Del.
        by rewrite lookup_delete_eq.
    + simpl. intros [= <- <-]. by rewrite Hl.
Qed.

(** * Further properties of the code *)

(** ** The in-memory storage: round trip, frame, deletion *)

(** X1.  In [memory.Storage], a token that passes [Validate] is stored, and
    a [Retrieve] of its value and kind at any instant up to and including
    its [ValidUntil] returns that token and leaves the storage as [Store]
    left it. *)
Theorem memory_Store_Retrieve (t : token.Token) (s : memory.Storage)
    (now : time.Time) :
  token.Validate (Some t) = None ->
  now <= token.ValidUntil t ->
  exists s',
    memory.Store Background (Some t) s = (s', None) /\
    memory.Retrieve Background now (token.Value t) (token.Typ t) s' = (s', Ok t).
Proof.
  intros Hval Hnow. unfold memory.Store. cbn [ctx_Err]. rewrite Hval.
  eexists. split; [done|].
  unfold memory.Retrieve. cbn [ctx_Err memory.tokens].
  rewrite lookup_insert_eq.
  unfold token.IsExpired, time.After.
  destruct (Z.ltb_spec (token.ValidUntil t) now); [lia | done].
Qed.

Lemma memory_Store_Retrieve_witness :
  let t := {| token.Value := "abc"; token.Typ := token.TypeLink;
              token.CreatedAt := 1000; token.ValidUntil := 5000;
              token.ValidationID := "val-1" |} in
  exists s',
    memory.Store Background (Some t) memory.New = (s', None) /\
    memory.Retrieve Background 5000 "abc" token.TypeLink s' = (s', Ok t).
Proof.
  intros t. apply (memory_Store_Retrieve t memory.New 5000).
  - reflexivity.
  - simpl. lia.
Defined.

(** X2.  In [memory.Storage], [Store] and [Delete] of one (value, kind) key
    do not change what [Retrieve] returns for any other key; in particular a
    token stored as LINK is not seen by a lookup of the same value as
    CODE. *)
Theorem memory_other_keys_untouched (ctx : Context) (t : token.Token)
    (s : memory.Storage) (now : time.Time) (v v' : string) (ty ty' : TokenType) :
  (TokenKey (token.Value t) (token.Typ t) <> TokenKey v' ty' ->
   snd (memory.Retrieve Background now v' ty' (fst (memory.Store ctx (Some t) s)))
   = snd (memory.Retrieve Background now v' ty' s)) /\
  (TokenKey v ty <> TokenKey v' ty' ->
   snd (memory.Retrieve Background now v' ty' (fst (memory.Delete ctx v ty s)))
   = snd (memory.Retrieve Background now v' ty' s)) /\
  (token.Typ t <> ty' ->
   snd (memory.Retrieve Background now (token.Value t) ty'
          (fst (memory.Store ctx (Some t) memory.New)))
   = Err ErrTokenNotFound).
Proof.
  assert (HS : forall s0 k, TokenKey (token.Value t) (token.Typ t) <> k ->
            memory.tokens (fst (memory.Store ctx (Some t) s0)) !! k
            = memory.tokens s0 !! k).
  { intros s0 k Hne. unfold memory.Store. destruct (ctx_Err ctx); [done|].
    destruct (token.Validate (Some t)); [done|]. simpl.
    by rewrite lookup_insert_ne. }
  split; [|split].
  - intros Hne. apply (memory_Retrieve_tokens s _ now (TokenKey v' ty')).
    by apply HS.
  - intros Hne. apply (memory_Retrieve_tokens s _ now (TokenKey v' ty')).
    unfold memory.Delete. destruct (ctx_Err ctx); [done|].
    destruct (memory.tokens s !! TokenKey v ty) as [t0|]; [|done].
    destruct (memory.validationID s !! token.ValidationID t0); [destruct (0 <? _)|];
      simpl; by rewrite lookup_delete_ne.
  - intros Hne.
    rewrite (memory_Retrieve_tokens memory.New _ now (TokenKey (token.Value t) ty')).
    + reflexivity.
    + apply HS. intros [= Heq]. done.
Qed.

Lemma memory_other_keys_untouched_witness :
  let t := {| token.Value := "abc"; token.Typ := token.TypeLink;
              token.CreatedAt := 1000; token.ValidUntil := 5000;
              token.ValidationID := "val-1" |} in
  snd (memory.Retrieve Background 2000 "abc" token.TypeCode
         (fst (memory.Store Background (Some t) memory.New)))
  = Err ErrTokenNotFound.
Proof.
  intros t.
  apply (memory_other_keys_untouched Background t memory.New 2000 "abc" "abc"
           token.TypeLink token.TypeCode).
  discriminate.
Defined.

(** X3.  In [memory.Storage], after [Delete] of a key under a live context
    the key is not found by [Retrieve], and the index entry of its token's
    owner, if one is left, no longer lists the key. *)
Theorem memory_Delete_removes (s : memory.Storage) (v : string) (ty : TokenType)
    (now : time.Time) :
  memory.Retrieve Background now v ty (fst (memory.Delete Background v ty s))
  = (fst (memory.Delete Background v ty s), Err ErrTokenNotFound) /\
  (forall t keys,
     memory.tokens s !! TokenKey v ty = Some t ->
     memory.validationID (fst (memory.Delete Background v ty s)) !! token.ValidationID t
     = Some keys ->
     TokenKey v ty ∉ keys).
Proof.
  unfold memory.Delete. cbn [ctx_Err].
  destruct (memory.tokens s !! TokenKey v ty) as [t|] eqn:Ht.
  - split.
    + unfold memory.Retrieve. cbn [ctx_Err].
      destruct (memory.validationID s !! token.ValidationID t); [destruct (0 <? _)|];
        simpl; by rewrite lookup_delete_eq.
    + intros t0 keys [= <-].
      destruct (memory.validationID s !! token.ValidationID t) as [keys0|] eqn:Hk.
      * destruct (0 <? _); simpl.
        -- rewrite lookup_insert_eq. intros [= <-] Hin.
           apply elem_of_filter_keepKey in Hin as [_ Hne]. done.
        -- by rewrite lookup_delete_eq.
      * simpl. by rewrite Hk.
  - split; [|done]. unfold memory.Retrieve. cbn [ctx_Err fst]. by rewrite Ht.
Qed.

(** X4.  In [memory.Storage], a call that returns an error leaves the
    storage unchanged, except [Retrieve] reporting an expired token, which
    purges it; [Delete] and [DeleteByValidationID] fail only on a cancelled
    context or an empty validation ID. *)
Theorem memory_error_leaves_state (ctx : Context) (now : time.Time)
    (t : option token.Token) (v : string) (ty : TokenType) (o : string)
    (s : memory.Storage) :
  (forall s' e, memory.Store ctx t s = (s', Some e) -> s' = s) /\
  (forall s' e, memory.Delete ctx v ty s = (s', Some e) ->
     s' = s /\ ctx <> Background) /\
  (forall s' e, memory.DeleteByValidationID ctx o s = (s', Some e) ->
     s' = s /\ (ctx <> Background \/ o = "")) /\
  (forall s' e, memory.Retrieve ctx now v ty s = (s', Err e) ->
     IsTokenExpiredError e = false -> s' = s).
Proof.
  split; [|split; [|split]]; intros s' e.
  - unfold memory.Store. destruct (ctx_Err ctx); [by intros [= <- _]|].
    destruct (token.Validate t), t; by intros [= <-].
  - unfold memory.Delete. destruct ctx; cbn [ctx_Err]; try by intros [= <- _].
    destruct (memory.tokens s !! TokenKey v ty) as [t0|]; [|done].
    destruct (memory.validationID s !! token.ValidationID t0); [|done].
    by destruct (0 <? _).
  - unfold memory.DeleteByValidationID.
    destruct ctx; cbn [ctx_Err]; try by (intros [= <- _]; split; [|left]).
    case_decide; [intros [= <- _]; by split; [|right]|].
    by destruct (memory.validationID s !! o).
  - unfold memory.Retrieve. destruct (ctx_Err ctx); [by intros [= <- _]|].
    destruct (memory.tokens s !! TokenKey v ty) as [t0|]; [|by intros [= <- _]].
    destruct (token.IsExpired t0 now); [|done].
    by intros [= <- <-].
Qed.

(** ** The in-memory storage: what every sequence of calls keeps *)

(** X5.  After every sequence of calls on a new [memory.Storage], each
    stored token sits under the key made of its own value and kind and that
    key is listed in the index entry of its owner; so a token that
    [Retrieve] returns has the value and the kind that were asked for. *)
Theorem memory_stored_tokens_indexed (calls : list Call) :
  (forall k t,
     memory.tokens (fst (run calls memory.New)) !! k = Some t ->
     k = TokenKey (token.Value t) (token.Typ t) /\
     exists keys,
       memory.validationID (fst (run calls memory.New)) !! token.ValidationID t
       = Some keys /\ k ∈ keys) /\
  (forall ctx now v ty t,
     snd (memory.Retrieve ctx now v ty (fst (run calls memory.New))) = Ok t ->
     token.Value t = v /\ token.Typ t = ty).
Proof.
  pose proof (stored_indexed_run calls memory.New stored_indexed_New) as Hs.
  split; [exact Hs|].
  intros ctx now v ty t. unfold memory.Retrieve.
  destruct (ctx_Err ctx); [done|].
  destruct (memory.tokens _ !! TokenKey v ty) as [t0|] eqn:Ht; [|done].
  destruct (token.IsExpired t0 now); [done|]. simpl. intros [= ->].
  by destruct (Hs _ _ Ht) as [[= -> ->] _].
Qed.

Lemma indexExact_call (c : Call) (s : memory.Storage) :
  indexExact s -> benign s c -> indexExact (fst (call c s)).
Proof.
  intros Hs Hb.
  destruct c as [ctx now t|ctx now v ty|ctx now v ty|ctx now o]; simpl in *.
  - destruct ctx; [|exact Hs..].
    destruct t as [t|]; [|exact Hs].
    pose proof (indexExact_Store_fresh t s Hs Hb).
    by destruct (memory.Store Background (Some t) s).
  - unfold memory.Retrieve. destruct (ctx_Err ctx); [done|].
    destruct (memory.tokens s !! TokenKey v ty) as [t|]; [|done].
    by rewrite Hb.
  - destruct ctx; [|exact Hs..].
    pose proof (indexExact_Delete v ty s Hs).
    by destruct (memory.Delete Background v ty s).
  - destruct ctx; [|exact Hs..].
    pose proof (indexExact_DeleteByValidationID o s Hs).
    by destruct (memory.DeleteByValidationID Background o s).
Qed.

(** X6.  On a new [memory.Storage], along every sequence of calls in which
    [Store] is only given keys that are not stored at that moment and
    [Retrieve] never meets an expired token, the index lists exactly stored
    tokens of the owner, each key once: every indexed key has a token with
    that owner and no key is listed twice. *)
Theorem memory_index_exact (calls : list Call) :
  benignRun calls memory.New ->
  indexExact (fst (run calls memory.New)) /\
  indexConsistent (fst (run calls memory.New)).
Proof.
  assert (Hgen : forall s, indexExact s -> benignRun calls s ->
                           indexExact (fst (run calls s))).
  { induction calls as [|c calls IH]; intros s Hs Hb; simpl in *; [done|].
    destruct Hb as [Hc Hb].
    pose proof (indexExact_call c s Hs Hc) as H1.
    destruct (call c s) as [s1 o]. simpl in *.
    pose proof (IH s1 H1 Hb) as H2. by destruct (run calls s1). }
  intros Hb. pose proof (Hgen memory.New indexExact_New Hb) as He.
  split; [done|]. by apply indexExact_consistent.
Qed.

Lemma memory_index_exact_witness :
  let t1 := {| token.Value := "link-1"; token.Typ := token.TypeLink;
               token.CreatedAt := 1000; token.ValidUntil := 5000;
               token.ValidationID := "val-1" |} in
  let t2 := {| token.Value := "1234"; token.Typ := token.TypeCode;
               token.CreatedAt := 1000; token.ValidUntil := 5000;
               token.ValidationID := "val-1" |} in
  let calls := [CallStore Background 1000 (Some t1);
                CallStore Background 1000 (Some t2);
                CallRetrieve Background 2000 "link-1" token.TypeLink;
                CallDelete Background 2000 "link-1" token.TypeLink] in
  indexExact (fst (run calls memory.New)) /\
  indexConsistent (fst (run calls memory.New)).
Proof.
  intros t1 t2 calls. apply (memory_index_exact calls).
  vm_compute. repeat split; reflexivity.
Defined.

(** ** What [Retrieve] never returns *)

(** X7.  In all four storage implementations a [Retrieve] that returns a
    token returns one that has not expired at the clock reading of the
    call, and leaves the storage unchanged. *)
Theorem Retrieve_returns_live_token {codec : JSON} (ctx : Context)
    (now : time.Time) (v : string) (ty : TokenType) (t : token.Token) :
  (forall s s', memory.Retrieve ctx now v ty s = (s', Ok t) ->
     now <= token.ValidUntil t /\ s' = s) /\
  (forall s s', MemoryStorage.Retrieve ctx now v ty s = (s', Ok t) ->
     now <= token.ValidUntil t /\ s' = s) /\
  (forall db db', redis.Retrieve ctx now v ty db = (db', Ok t) ->
     now <= token.ValidUntil t /\ db' = db) /\
  (forall db db', RedisStorage.Retrieve ctx now v ty db = (db', Ok t) ->
     now <= token.ValidUntil t /\ db' = db).
Proof.
  assert (Hlive : forall t0 : token.Token,
            token.IsExpired t0 now = false -> now <= token.ValidUntil t0).
  { intros t0. unfold token.IsExpired, time.After.
    destruct (Z.ltb_spec (token.ValidUntil t0) now); [done | lia]. }
  split; [|split; [|split]].
  - intros s s'. unfold memory.Retrieve. destruct (ctx_Err ctx); [done|].
    destruct (memory.tokens s !! TokenKey v ty) as [t0|]; [|done].
    destruct (token.IsExpired t0 now) eqn:He; [done|]. intros [= <- <-]. auto.
  - intros s s'. unfold MemoryStorage.Retrieve. destruct (ctx_Err ctx); [done|].
    destruct (MemoryStorage.tokens s !! TokenKey v ty) as [t0|]; [|done].
    destruct (token.IsExpired t0 now) eqn:He; [done|]. intros [= <- <-]. auto.
  - intros db db'. unfold redis.Retrieve. destruct (ctx_Err ctx); [done|].
    destruct (goredis.Get db now _) as [d|e]; [|by case_decide].
    destruct (json_Unmarshal d) as [t0|]; [|done].
    destruct (token.IsExpired t0 now) eqn:He; [done|]. intros [= <- <-]. auto.
  - intros db db'. unfold RedisStorage.Retrieve. destruct (ctx_Err ctx); [done|].
    destruct (goredis.Get db now _) as [d|e]; [|by case_decide].
    destruct (json_Unmarshal d) as [t0|]; [|done].
    destruct (time.After now (token.ValidUntil t0)) eqn:He; [done|].
    intros [= <- <-]. split; [|done]. by apply Hlive.
Qed.

(** ** The Redis-backed storage *)

(** X8.  The keys that [redis.Storage] writes are unambiguous: two token
    keys are equal only for the same value and the same kind, whatever
    bytes the value holds, two index keys only for the same validation ID,
    and a token key is never an index key. *)
Theorem redis_keys_distinct (v1 v2 : string) (ty1 ty2 : TokenType) (o1 o2 : string) :
  (redis.tokenKeyOf v1 ty1 = redis.tokenKeyOf v2 ty2 <-> v1 = v2 /\ ty1 = ty2) /\
  (redis.validationKeyOf o1 = redis.validationKeyOf o2 <-> o1 = o2) /\
  redis.tokenKeyOf v1 ty1 <> redis.validationKeyOf o1.
Proof.
  split; [|split].
  - split; [apply tokenKeyOf_inj | by intros [-> ->]].
  - split; [apply validationKeyOf_inj | by intros ->].
  - apply tokenKeyOf_validationKeyOf.
Qed.

Section RedisFacts.
Context {codec : JSON}.

Arguments redis.tokenKeyOf : simpl never.
Arguments redis.validationKeyOf : simpl never.

Lemma live_later_None (db : gmap string goredis.entry)
    (now now' : time.Time) (key : string) :
  now <= now' -> goredis.live db now key = None -> goredis.live db now' key = None.
Proof.
  intros Hle. unfold goredis.live, goredis.expired.
  destruct (db !! key) as [[val [w|]]|]; simpl; try done.
  pose proof (clock_mono now now' Hle).
  destruct (Z.ltb_spec w (goredis.clock now)); [|done]. intros _.
  destruct (Z.ltb_spec w (goredis.clock now')); [done | lia].
Qed.

Lemma live_Some (db : gmap string goredis.entry) (now : time.Time) (key : string)
    (e : goredis.entry) :
  goredis.live db now key = Some e ->
  db !! key = Some e /\ goredis.expired e now = false.
Proof.
  unfold goredis.live. destruct (db !! key) as [e'|]; [|done].
  destruct (goredis.expired e' now) eqn:He; [done|]. by intros [= <-].
Qed.

Lemma live_insert (db : gmap string goredis.entry) (now : time.Time) (key : string)
    (e : goredis.entry) :
  goredis.expired e now = false -> goredis.live (<[key := e]> db) now key = Some e.
Proof. intros He. unfold goredis.live. by rewrite lookup_insert_eq, He. Qed.

Lemma SAdd_written (db db2 : gmap string goredis.entry) (now : time.Time)
    (key member : string) :
  goredis.SAdd db now key member = (db2, None) ->
  exists members exp,
    db2 = <[key := goredis.Entry (goredis.VSet members) exp]> db /\
    member ∈ members /\
    goredis.expired (goredis.Entry (goredis.VSet members) exp) now = false.
Proof.
  unfold goredis.SAdd.
  destruct (goredis.live db now key) as [[[d|members] exp]|] eqn:Hl.
  - done.
  - intros [= <-]. apply live_Some in Hl as [_ He].
    exists (members ∪ {[member]}), exp. split; [done|]. split; [set_solver|done].
  - intros [= <-]. exists {[member]}, None. split; [done|]. split; [set_solver|done].
Qed.

(** What a successful [Store] has written. *)
Lemma redis_Store_written (now : time.Time) (t : token.Token)
    (db db' : gmap string goredis.entry) :
  redis.Store Background now (Some t) db = (db', None) ->
  token.Validate (Some t) = None /\
  now <= token.ValidUntil t /\
  exists d members,
    json_Marshal t = Some d /\
    db' !! redis.tokenKeyOf (token.Value t) (token.Typ t)
    = Some (goredis.Entry (goredis.VString d)
              (if 0 <? time.Sub (token.ValidUntil t) now
               then Some (goredis.clock now +
                          (if goredis.usePrecise (time.Sub (token.ValidUntil t) now)
                           then goredis.formatMs (time.Sub (token.ValidUntil t) now)
                           else 1000 * goredis.formatSec (time.Sub (token.ValidUntil t) now)))
               else None)) /\
    redis.tokenKeyOf (token.Value t) (token.Typ t) ∈ members /\
    (goredis.clock now < token.ValidUntil t / time.Second * 1000 ->
     db' !! redis.validationKeyOf (token.ValidationID t)
     = Some (goredis.Entry (goredis.VSet members)
               (Some (token.ValidUntil t / time.Second * 1000)))).
Proof.
  unfold redis.Store. cbn [ctx_Err].
  destruct (token.Validate (Some t)) as [e|] eqn:Hval; [done|].
  destruct (json_Marshal t) as [d|] eqn:Hd; [|done].
  unfold time.Before.
  destruct (Z.ltb_spec (token.ValidUntil t) now) as [|Hle]; [done|].
  set (key := redis.tokenKeyOf (token.Value t) (token.Typ t)).
  set (vkey := redis.validationKeyOf (token.ValidationID t)).
  assert (Hne : key <> vkey) by apply tokenKeyOf_validationKeyOf.
  unfold goredis.Set_. set (exp1 := if 0 <? _ then _ else _).
  set (db1 := <[key := goredis.Entry (goredis.VString d) exp1]> db).
  destruct (goredis.SAdd db1 now vkey key) as [db2 [e|]] eqn:Hsadd; [done|].
  apply SAdd_written in Hsadd as (members & exp2 & -> & Hin & Halive).
  unfold goredis.ExpireAt. rewrite (live_insert db1 now vkey _ Halive).
  destruct (Z.leb_spec (token.ValidUntil t / time.Second * 1000) (goredis.clock now));
    intros [= <-]; (split; [done|]); (split; [done|]);
    exists d, members; (split; [done|]).
  - split; [|split; [done|lia]].
    rewrite lookup_delete_ne, lookup_insert_ne by done. by apply lookup_insert_eq.
  - split; [|split; [done|]].
    + rewrite !lookup_insert_ne by done. by apply lookup_insert_eq.
    + intros _. by rewrite lookup_insert_eq.
Qed.

End RedisFacts.

Lemma Set_expiry_reaches (now now1 vu : time.Time) :
  now <= now1 -> now1 + time.Millisecond <= vu ->
  vu - now <= time.maxDuration ->
  (0 <? time.Sub vu now) = true /\
  goredis.clock now1
  <= goredis.clock now
     + (if goredis.usePrecise (time.Sub vu now) then goredis.formatMs (time.Sub vu now)
        else 1000 * goredis.formatSec (time.Sub vu now)).
Proof.
  intros Hnow Hvu Hmax.
  assert (Httl : time.Sub vu now = vu - now).
  { apply Sub_exact. unfold time.minDuration, time.Millisecond in *. lia. }
  rewrite Httl. set (ttl := vu - now).
  assert (Hge : time.Millisecond <= ttl) by (unfold ttl; lia).
  assert (Hvu' : vu = now + ttl) by (unfold ttl; lia).
  clearbody ttl. subst vu.
  split; [unfold time.Millisecond in *; lia|].
  unfold goredis.clock, goredis.usePrecise, goredis.formatMs, goredis.formatSec.
  unfold time.Second, time.Millisecond in *.
  destruct (Z.ltb_spec ttl 1000000) as [?|_]; [lia|].
  rewrite andb_false_r.
  destruct (Z.ltb_spec ttl 1000000000) as [?|?]; simpl.
  - Z.to_euclidean_division_equations; lia.
  - rewrite andb_false_r.
    destruct (Z.eqb_spec (Z.rem ttl 1000000000) 0) as [Hmod|Hmod]; cbn [negb];
      Z.to_euclidean_division_equations; lia.
Qed.

Section RedisProperties.
Context {codec : JSON}.

Arguments redis.tokenKeyOf : simpl never.
Arguments redis.validationKeyOf : simpl never.


(** X10.  In [redis.Storage], once [Delete] of a key has returned without
    error, [Retrieve] of that key reports [ErrTokenNotFound] at every later
    instant and changes nothing. *)
Theorem redis_Delete_removes (db db' : gmap string goredis.entry)
    (now now' : time.Time) (v : string) (ty : TokenType) :
  redis.Delete Background now v ty db = (db', None) ->
  now <= now' ->
  redis.Retrieve Background now' v ty db' = (db', Err ErrTokenNotFound).
Proof.
  intros Hdel Hle.
  assert (Hgone : goredis.live db' now' (redis.tokenKeyOf v ty) = None).
  { revert Hdel. unfold redis.Delete, goredis.Get. cbn [ctx_Err].
    destruct (goredis.live db now (redis.tokenKeyOf v ty)) as [[[d|members] exp]|] eqn:Hl.
    - destruct (json_Unmarshal d) as [t|]; [|done].
      destruct (goredis.SRem db now _ _) as [db1 [e|]].
      + destruct (decide (e = ErrRedisNil)); [|done].
        intros [= <-]. unfold goredis.live, goredis.Del. by rewrite lookup_delete_eq.
      + intros [= <-]. unfold goredis.live, goredis.Del. by rewrite lookup_delete_eq.
    - by rewrite decide_False.
    - rewrite decide_True by done. intros [= <-]. by apply (live_later_None db now). }
  unfold redis.Retrieve, goredis.Get. cbn [ctx_Err]. rewrite Hgone.
  by rewrite decide_True.
Qed.


End RedisProperties.

(** ** The manager over the in-memory storage *)

Lemma withStorage_storage {S} (m : token.Manager S) :
  token.withStorage m (token.storage m) = m.
Proof. by destruct m. Qed.

Lemma createToken_stored {S} `{token.Storage S} (m m1 : token.Manager S) ctx src
    now now' tokenType validationID ttl tok :
  token.createToken m ctx src now now' tokenType validationID ttl = (m1, Ok tok) ->
  ctx = Background /\
  exists s',
    token.Store Background now' (Some tok) (token.storage m) = (s', None) /\
    m1 = token.withStorage m s'.
Proof.
  unfold token.createToken.
  destruct ctx; cbn [ctx_Err]; [|done..].
  destruct (decide (validationID = "")); [done|].
  destruct (ttl <=? 0); [done|].
  assert (Hfin : forall generated,
    match generated with
    | Panic p => (m, Panic p)
    | Err e => (m, Err (Wrap "failed to generate token" e))
    | Ok tokenValue =>
        match token.Store Background now'
                (Some (token.New tokenValue tokenType validationID ttl now))
                (token.storage m) with
        | (s', Some err) => (token.withStorage m s', Err (Wrap "failed to store token" err))
        | (s', None) =>
            (token.withStorage m s', Ok (token.New tokenValue tokenType validationID ttl now))
        end
    end = (m1, Ok tok) ->
    Background = Background /\
    exists s', token.Store Background now' (Some tok) (token.storage m) = (s', None) /\
               m1 = token.withStorage m s').
  { intros [v|e|p]; [|done..].
    destruct (token.Store _ _ _ _) as [s' [err|]] eqn:Hst; [done|].
    intros [= <- <-]. split; [done|]. by exists s'. }
  destruct (tokenType =? token.TypeLink); [apply Hfin|].
  destruct (tokenType =? token.TypeCode); [apply Hfin|done].
Qed.

Lemma memory_Store_Ok (ctx : Context) (t : token.Token) (s s' : memory.Storage) :
  memory.Store ctx (Some t) s = (s', None) ->
  token.Validate (Some t) = None /\
  memory.tokens s' = <[TokenKey (token.Value t) (token.Typ t) := t]> (memory.tokens s) /\
  memory.validationID s'
  = <[token.ValidationID t :=
        (default [] (memory.validationID s !! token.ValidationID t)
           ++ [TokenKey (token.Value t) (token.Typ t)])%list]> (memory.validationID s).
Proof.
  unfold memory.Store. destruct (ctx_Err ctx); [done|].
  destruct (token.Validate (Some t)); [done|]. by intros [= <-].
Qed.

Lemma Validate_Some_None (t : token.Token) :
  token.Validate (Some t) = None ->
  token.Value t <> "" /\ token.ValidationID t <> "" /\ token.ValidUntil t <> 0.
Proof.
  unfold token.Validate, time.IsZero. repeat case_decide; try done.
  destruct (Z.eqb_spec (token.ValidUntil t) 0); done.
Qed.

Lemma memory_Retrieve_absent (s : memory.Storage) (now : time.Time) (v : string)
    (ty : TokenType) :
  memory.tokens s !! TokenKey v ty = None ->
  memory.Retrieve Background now v ty s = (s, Err ErrTokenNotFound).
Proof. intros Hk. unfold memory.Retrieve. cbn [ctx_Err]. by rewrite Hk. Qed.

Lemma memory_Retrieve_live (s : memory.Storage) (now : time.Time) (v : string)
    (ty : TokenType) (t : token.Token) :
  memory.tokens s !! TokenKey v ty = Some t ->
  now <= token.ValidUntil t ->
  memory.Retrieve Background now v ty s = (s, Ok t).
Proof.
  intros Hk Hle. unfold memory.Retrieve. cbn [ctx_Err]. rewrite Hk.
  unfold token.IsExpired, time.After.
  destruct (Z.ltb_spec (token.ValidUntil t) now); [lia | done].
Qed.

Lemma VerifyToken_absent (m : token.Manager memory.Storage) (now now' : time.Time)
    (v : string) (ty : TokenType) :
  v <> "" ->
  memory.tokens (token.storage m) !! TokenKey v ty = None ->
  token.VerifyToken m Background now now' v ty
  = (m, Err (Wrap "failed to retrieve token from storage" ErrTokenNotFound)).
Proof.
  intros Hv Hk. unfold token.VerifyToken. cbn [ctx_Err].
  rewrite decide_False by done.
  change (token.Retrieve Background now v ty (token.storage m))
    with (memory.Retrieve Background now v ty (token.storage m)).
  rewrite memory_Retrieve_absent by done.
  by rewrite withStorage_storage.
Qed.

(** X12.  On the in-memory backend, a token returned by [createToken] (so by
    [CreateLinkToken], [CreateCodeToken] and [CreateTokenWithTTL]) has a
    non-empty value and is returned again, with the storage unchanged, by
    [VerifyToken] and by [GetTokenInfo] for its value and kind at every
    instant up to and including its [ValidUntil]. *)
Theorem manager_create_then_verify (m m1 : token.Manager memory.Storage)
    (ctx : Context) (src : Source) (now now' now1 now2 : time.Time)
    (ty : TokenType) (o : string) (ttl : time.Duration) (tok : token.Token) :
  token.createToken m ctx src now now' ty o ttl = (m1, Ok tok) ->
  now1 <= token.ValidUntil tok -> now2 <= token.ValidUntil tok ->
  token.Value tok <> "" /\
  token.VerifyToken m1 Background now1 now2 (token.Value tok) ty = (m1, Ok tok) /\
  token.GetTokenInfo m1 Background now1 (token.Value tok) ty = (m1, Ok tok).
Proof.
  intros Hc H1 H2.
  pose proof (createToken_Ok _ _ _ _ _ _ _ _ _ _ Hc) as (Hty & _).
  apply createToken_stored in Hc as (_ & s' & Hst & ->).
  apply memory_Store_Ok in Hst as (Hval & Htok & _).
  apply Validate_Some_None in Hval as (Hv & _).
  assert (Hk : memory.tokens s' !! TokenKey (token.Value tok) ty = Some tok).
  { rewrite Htok, <- Hty. apply lookup_insert_eq. }
  split; [done|].
  unfold token.VerifyToken, token.GetTokenInfo. cbn [ctx_Err].
  rewrite decide_False by done.
  change (token.Retrieve Background now1 (token.Value tok) ty
            (token.storage (token.withStorage m s')))
    with (memory.Retrieve Background now1 (token.Value tok) ty s').
  rewrite (memory_Retrieve_live s' now1 _ ty tok Hk H1).
  rewrite Hty, Z.eqb_refl. cbn [negb].
  unfold token.IsExpired, time.After.
  destruct (Z.ltb_spec (token.ValidUntil tok) now2); [lia|].
  split; [reflexivity|].
  by rewrite decide_False by done.
Qed.

Lemma manager_create_then_verify_witness :
  let m := token.NewManager memory.New [] in
  let src := SrcBytes (fun _ => x2a) in
  exists m1 tok,
    token.CreateCodeToken m Background src 1000 1001 "val-1" = (m1, Ok tok) /\
    token.Value tok = "2222" /\
    token.VerifyToken m1 Background 2000 2001 "2222" token.TypeCode = (m1, Ok tok).
Proof.
  intros m src.
  destruct (token.CreateCodeToken m Background src 1000 1001 "val-1") as [m1 [tok| |]] eqn:Hc;
    [|vm_compute in Hc; discriminate..].
  exists m1, tok. split; [reflexivity|].
  assert (Hv : token.Value tok = "2222") by (vm_compute in Hc; by injection Hc as <- <-).
  split; [exact Hv|]. rewrite <- Hv.
  apply (manager_create_then_verify m m1 Background src 1000 1001 2000 2001
           token.TypeCode "val-1" (token.codeTokenTTL m) tok).
  - exact Hc.
  - vm_compute in Hc. injection Hc as <- <-. vm_compute. discriminate.
  - vm_compute in Hc. injection Hc as <- <-. vm_compute. discriminate.
Defined.

Lemma memory_Delete_tokens (s s' : memory.Storage) (v : string) (ty : TokenType)
    (r : option error) :
  memory.Delete Background v ty s = (s', r) ->
  r = None /\ memory.tokens s' !! TokenKey v ty = None.
Proof.
  unfold memory.Delete. cbn [ctx_Err].
  destruct (memory.tokens s !! TokenKey v ty) as [t|] eqn:Ht.
  - destruct (memory.validationID s !! token.ValidationID t); [destruct (0 <? _)|];
      intros [= <- <-]; simpl; by rewrite lookup_delete_eq.
  - by intros [= <- <-].
Qed.



(** X14.  On the in-memory backend, after two tokens have been created for
    one validation ID (of any kinds), [InvalidateValidation] of that ID
    succeeds and [VerifyToken] of either token fails with an error that
    wraps [ErrTokenNotFound]. *)
Theorem manager_invalidate_validation (m m1 m2 : token.Manager memory.Storage)
    (ctx ctx' : Context) (src src' : Source) (now now' now1 now1' now2 now3 now4 : time.Time)
    (ty ty' : TokenType) (o : string) (ttl ttl' : time.Duration)
    (tok tok' : token.Token) :
  token.createToken m ctx src now now' ty o ttl = (m1, Ok tok) ->
  token.createToken m1 ctx' src' now1 now1' ty' o ttl' = (m2, Ok tok') ->
  exists m3,
    token.InvalidateValidation m2 Background now2 o = (m3, None) /\
    (exists e, token.VerifyToken m3 Background now3 now4 (token.Value tok) ty = (m3, Err e) /\
               errors_Is e ErrTokenNotFound = true) /\
    (exists e, token.VerifyToken m3 Background now3 now4 (token.Value tok') ty' = (m3, Err e) /\
               errors_Is e ErrTokenNotFound = true).
Proof.
  intros Hc Hc'.
  pose proof (createToken_Ok _ _ _ _ _ _ _ _ _ _ Hc) as (Hty & Ho & _).
  pose proof (createToken_Ok _ _ _ _ _ _ _ _ _ _ Hc') as (Hty' & Ho' & _ & _ & _ & Hne & _).
  apply createToken_stored in Hc as (_ & s1 & Hst & ->).
  apply createToken_stored in Hc' as (_ & s2 & Hst' & ->).
  apply memory_Store_Ok in Hst as (Hval & _ & Hidx).
  apply memory_Store_Ok in Hst' as (Hval' & _ & Hidx').
  apply Validate_Some_None in Hval as (Hv & _).
  apply Validate_Some_None in Hval' as (Hv' & _).
  cbn [token.storage token.withStorage] in *.
  rewrite Ho in Hidx. rewrite Ho' in Hidx'. rewrite Hty in Hidx. rewrite Hty' in Hidx'.
  rewrite Hidx, lookup_insert_eq in Hidx'. cbn [default] in Hidx'.
  set (keys := ((default [] (memory.validationID (token.storage m) !! o)
                   ++ [TokenKey (token.Value tok) ty])
                  ++ [TokenKey (token.Value tok') ty'])%list) in *.
  assert (Hl : memory.validationID s2 !! o = Some keys)
    by (rewrite Hidx'; apply lookup_insert_eq).
  unfold token.InvalidateValidation. cbn [ctx_Err]. rewrite decide_False by done.
  change (token.DeleteByValidationID Background now2 o
            (token.storage (token.withStorage (token.withStorage m s1) s2)))
    with (memory.DeleteByValidationID Background o s2).
  pose proof (memory_DeleteByValidationID_tokens s2 o) as Hdel.
  unfold memory.DeleteByValidationID in *. cbn [ctx_Err] in *.
  rewrite decide_False in * by done. rewrite Hl in *. cbn [fst memory.tokens default] in Hdel.
  eexists. split; [reflexivity|].
  split; (eexists; split; [apply VerifyToken_absent; [done|]|reflexivity]);
    cbn [token.storage token.withStorage memory.tokens]; rewrite (Hdel _ Hne);
    apply decide_True; unfold keys; set_solver.
Qed.

Lemma manager_invalidate_validation_witness :
  let m := token.NewManager memory.New [] in
  let src := SrcBytes (fun _ => x2a) in
  exists m1 m2 m3 tok tok' e,
    token.CreateLinkToken m Background src 1000 1001 "val-1" = (m1, Ok tok) /\
    token.CreateCodeToken m1 Background src 1002 1003 "val-1" = (m2, Ok tok') /\
    token.InvalidateValidation m2 Background 2000 "val-1" = (m3, None) /\
    token.VerifyToken m3 Background 3000 3001 (token.Value tok) token.TypeLink = (m3, Err e) /\
    errors_Is e ErrTokenNotFound = true.
Proof.
  intros m src.
  destruct (token.CreateLinkToken m Background src 1000 1001 "val-1")
    as [m1 [tok| |]] eqn:Hc; [|vm_compute in Hc; discriminate..].
  destruct (token.CreateCodeToken m1 Background src 1002 1003 "val-1")
    as [m2 [tok'| |]] eqn:Hc';
    [|vm_compute in Hc; injection Hc as <- <-; vm_compute in Hc'; discriminate..].
  destruct (manager_invalidate_validation m m1 m2 Background Background src src
              1000 1001 1002 1003 2000 3000 3001 token.TypeLink token.TypeCode "val-1"
              (token.linkTokenTTL m) (token.codeTokenTTL m1) tok tok' Hc Hc')
    as (m3 & Hinv & (e & Hver & He) & _).
  exists m1, m2, m3, tok, tok', e. done.
Defined.

(** X15.  On the in-memory backend, [VerifyToken] of a created token
    after its [ValidUntil] fails with an error for which
    [IsTokenExpiredError] holds, whether the storage or the manager's own
    check detects the expiry.  When the storage detects it the token is
    purged: the next [VerifyToken] fails with [ErrTokenNotFound] and no
    longer with an expiry error. *)
Theorem manager_verify_expired (m m1 : token.Manager memory.Storage)
    (ctx : Context) (src : Source) (now now' now1 now2 now3 now4 : time.Time)
    (ty : TokenType) (o : string) (ttl : time.Duration) (tok : token.Token) :
  token.createToken m ctx src now now' ty o ttl = (m1, Ok tok) ->
  now1 <= now2 -> token.ValidUntil tok < now2 ->
  exists m2 e,
    token.VerifyToken m1 Background now1 now2 (token.Value tok) ty = (m2, Err e) /\
    IsTokenExpiredError e = true /\
    errors_Is e ErrTokenNotFound = false /\
    (token.ValidUntil tok < now1 ->
     exists e',
       token.VerifyToken m2 Background now3 now4 (token.Value tok) ty = (m2, Err e') /\
       errors_Is e' ErrTokenNotFound = true /\
       IsTokenExpiredError e' = false).
Proof.
  intros Hc Hle Hexp.
  pose proof (createToken_Ok _ _ _ _ _ _ _ _ _ _ Hc) as (Hty & _).
  apply createToken_stored in Hc as (_ & s' & Hst & ->).
  apply memory_Store_Ok in Hst as (Hval & Htok & _).
  apply Validate_Some_None in Hval as (Hv & _).
  assert (Hk : memory.tokens s' !! TokenKey (token.Value tok) ty = Some tok).
  { rewrite Htok, <- Hty. apply lookup_insert_eq. }
  unfold token.VerifyToken at 1. cbn [ctx_Err].
  rewrite decide_False by done.
  change (token.Retrieve Background now1 (token.Value tok) ty
            (token.storage (token.withStorage m s')))
    with (memory.Retrieve Background now1 (token.Value tok) ty s').
  destruct (Z.lt_ge_cases (token.ValidUntil tok) now1) as [Hlt|Hge].
  - rewrite (memory_Retrieve_expired s' _ ty tok now1 Hk Hlt).
    eexists _, _. split; [reflexivity|]. split; [reflexivity|]. split; [reflexivity|].
    intros _. eexists. split.
    { apply VerifyToken_absent; [done|]. simpl. apply lookup_delete_eq. }
    split; reflexivity.
  - rewrite (memory_Retrieve_live s' now1 _ ty tok Hk Hge).
    rewrite Hty, Z.eqb_refl. cbn [negb].
    unfold token.IsExpired, time.After.
    destruct (Z.ltb_spec (token.ValidUntil tok) now2); [|lia].
    eexists _, _. split; [reflexivity|]. split; [reflexivity|]. split; [reflexivity|].
    intros ?. lia.
Qed.

Lemma manager_verify_expired_witness :
  let m := token.NewManager memory.New [] in
  let src := SrcBytes (fun _ => x2a) in
  exists m1 m2 tok e e',
    token.CreateTokenWithTTL m Background src 1000 1001 token.TypeCode "val-1" 1
    = (m1, Ok tok) /\
    token.VerifyToken m1 Background 2000 2001 (token.Value tok) token.TypeCode = (m2, Err e) /\
    IsTokenExpiredError e = true /\
    token.VerifyToken m2 Background 3000 3001 (token.Value tok) token.TypeCode = (m2, Err e') /\
    errors_Is e' ErrTokenNotFound = true.
Proof.
  intros m src.
  destruct (token.CreateTokenWithTTL m Background src 1000 1001 token.TypeCode "val-1" 1)
    as [m1 [tok| |]] eqn:Hc; [|vm_compute in Hc; discriminate..].
  assert (Hvu : token.ValidUntil tok = 1001)
    by (vm_compute in Hc; by injection Hc as <- <-).
  destruct (manager_verify_expired m m1 Background src 1000 1001 2000 2001 3000 3001
              token.TypeCode "val-1" 1 tok Hc)
    as (m2 & e & Hver & He & _ & Hnext); [lia | lia |].
  destruct Hnext as (e' & Hver' & He' & _); [lia|].
  exists m1, m2, tok, e, e'. done.
Defined.

(** X16.  Over an in-memory storage reachable from [memory.New] by the four
    operations, [VerifyToken] never reports a token type mismatch, and a
    token it returns has the requested value and kind and has not expired
    at the manager's reading of the clock. *)
Theorem VerifyToken_returns_requested (m m' : token.Manager memory.Storage)
    (ctx : Context) (now now' : time.Time) (v : string) (ty : TokenType)
    (r : result token.Token) :
  reachable (token.storage m) ->
  token.VerifyToken m ctx now now' v ty = (m', r) ->
  r <> Err (Errorf "token type mismatch") /\
  (forall tok, r = Ok tok ->
     token.Value tok = v /\ token.Typ tok = ty /\ now' <= token.ValidUntil tok /\
     m' = m).
Proof.
  intros Hreach. apply reachable_stored_indexed in Hreach.
  unfold token.VerifyToken.
  destruct ctx; cbn [ctx_Err]; [|by intros [= <- <-]..].
  destruct (decide (v = "")); [by intros [= <- <-]|].
  change (token.Retrieve Background now v ty (token.storage m))
    with (memory.Retrieve Background now v ty (token.storage m)).
  unfold memory.Retrieve. cbn [ctx_Err].
  destruct (memory.tokens (token.storage m) !! TokenKey v ty) as [t|] eqn:Hk;
    [|by intros [= <- <-]].
  destruct (token.IsExpired t now); [by intros [= <- <-]|].
  apply Hreach in Hk as [[= Hval Htyp] _].
  rewrite <- Htyp, Z.eqb_refl. cbn [negb].
  unfold token.IsExpired, time.After.
  destruct (Z.ltb_spec (token.ValidUntil t) now'); intros [= <- <-]; [done|].
  split; [done|]. intros tok [= <-]. by rewrite withStorage_storage.
Qed.

Lemma VerifyToken_returns_requested_witness :
  let t := {| token.Value := "abc"; token.Typ := token.TypeLink;
              token.CreatedAt := 1000; token.ValidUntil := 5000;
              token.ValidationID := "val-1" |} in
  let m := token.NewManager (fst (memory.Store Background (Some t) memory.New)) [] in
  token.VerifyToken m Background 2000 2001 "abc" token.TypeLink = (m, Ok t) /\
  token.Value t = "abc" /\ token.Typ t = token.TypeLink /\
  2001 <= token.ValidUntil t.
Proof.
  intros t m.
  assert (Hv : token.VerifyToken m Background 2000 2001 "abc" token.TypeLink = (m, Ok t))
    by reflexivity.
  split; [exact Hv|].
  destruct (VerifyToken_returns_requested m m Background 2000 2001 "abc" token.TypeLink
              (Ok t)) as [_ Hok].
  - exists [CallStore Background 1000 (Some t)]. reflexivity.
  - exact Hv.
  - destruct (Hok t eq_refl) as (H1 & H2 & H3 & _). done.
Defined.

(** X17.  For every storage backend, [GetTokenInfo] leaves the backend in
    the state in which [VerifyToken] with the same arguments leaves it (so
    it also triggers the purge of an expired token that [Retrieve] of the
    backend performs), and returns every token that [VerifyToken] returns;
    when it fails, [VerifyToken] fails as well, with an error that
    [errors.Is] matches against the same targets, the two errors themselves
    apart. *)
Theorem GetTokenInfo_effect {S} `{token.Storage S} (m : token.Manager S)
    (ctx : Context) (now now' : time.Time) (v : string) (ty : TokenType) :
  fst (token.GetTokenInfo m ctx now v ty) = fst (token.VerifyToken m ctx now now' v ty) /\
  (forall tok,
     snd (token.VerifyToken m ctx now now' v ty) = Ok tok ->
     snd (token.GetTokenInfo m ctx now v ty) = Ok tok) /\
  (forall e,
     snd (token.GetTokenInfo m ctx now v ty) = Err e ->
     exists e', snd (token.VerifyToken m ctx now now' v ty) = Err e' /\
                forall target, target <> e -> target <> e' ->
                  errors_Is e' target = errors_Is e target).
Proof.
  unfold token.GetTokenInfo, token.VerifyToken.
  destruct (ctx_Err ctx); [split; [done|split; [done|]]|].
  { intros e0 [= <-]. eexists. split; [done|]. done. }
  destruct (decide (v = "")); [split; [done|split; [done|]]|].
  { intros e0 [= <-]. eexists. split; [done|]. done. }
  destruct (token.Retrieve ctx now v ty (token.storage m)) as [s' [t|e|p]].
  - destruct (negb (token.Typ t =? ty)); [done|].
    destruct (token.IsExpired t now'); [done|]. done.
  - split; [done|]. split; [done|]. intros e0 [= <-]. eexists. split; [done|].
    intros target Hne Hne'. cbn [errors_Is snd].
    rewrite !decide_False by done. done.
  - done.
Qed.

(** ** The generator: link tokens *)

Lemma list_ind3 {A} (P : list A -> Prop) :
  P [] -> (forall a, P [a]) -> (forall a b, P [a; b]) ->
  (forall a b c l, P l -> P (a :: b :: c :: l)) ->
  forall l, P l.
Proof.
  intros H0 H1 H2 H3 l.
  enough (P l /\ (forall a, P (a :: l)) /\ (forall a b, P (a :: b :: l))) by tauto.
  induction l as [|c l (IH0 & IH1 & IH2)]; [by repeat split|].
  split; [apply IH1|]. split; [intros a; apply IH2|]. intros a b. by apply H3.
Qed.

Lemma b64char_encodeURL (v : N) : inString (token.b64char v) token.encodeURL.
Proof.
  unfold token.b64char, inString.
  assert (Hlt : (N.to_nat (N.land v 63) < String.length token.encodeURL)%nat).
  { change 63%N with (N.ones 6). rewrite N.land_ones.
    pose proof (N.mod_upper_bound v (2 ^ 6) ltac:(done)) as Hm.
    change (String.length token.encodeURL) with 64%nat.
    change (2 ^ 6)%N with 64%N in *. lia. }
  destruct (string_get_length _ _ Hlt) as [c Hc]. rewrite Hc. eauto.
Qed.

Lemma EncodeToString_length (bytes : list byte) :
  String.length (token.EncodeToString bytes) = ((4 * length bytes + 2) / 3)%nat.
Proof.
  induction bytes as [|a|a b|a b c l IH] using list_ind3; [done..|].
  cbn [token.EncodeToString String.length length]. rewrite IH.
  replace (4 * S (S (S (length l))) + 2)%nat with ((4 * length l + 2) + 4 * 3)%nat by lia.
  rewrite Nat.div_add by done. lia.
Qed.

Lemma EncodeToString_alphabet (bytes : list byte) (i : nat) (c : ascii) :
  String.get i (token.EncodeToString bytes) = Some c ->
  inString c token.encodeURL.
Proof.
  revert i.
  induction bytes as [|a|a b|a b c0 l IH] using list_ind3; intros i;
    cbn [token.EncodeToString].
  - done.
  - destruct i as [|[|i]]; cbn [String.get]; try done;
      intros [= <-]; apply b64char_encodeURL.
  - destruct i as [|[|[|i]]]; cbn [String.get]; try done;
      intros [= <-]; apply b64char_encodeURL.
  - destruct i as [|[|[|[|i]]]]; cbn [String.get];
      try (intros [= <-]; apply b64char_encodeURL).
    apply IH.
Qed.

(** X18.  [GenerateLinkToken] with a non-negative length [n] and an entropy
    source that delivers returns a string of [(4 n + 2) / 3] characters
    (43 for the default 32 bytes), each one of the 64 characters of the
    URL-safe alphabet: letters, digits, [-] and [_], with no padding
    character; the string is empty only for [n = 0]. *)
Theorem GenerateLinkToken_spec (g : token.Generator) (stream : nat -> byte) :
  0 <= token.linkTokenLength g ->
  exists s,
    token.GenerateLinkToken g (SrcBytes stream) = Ok s /\
    Z.of_nat (String.length s) = (4 * token.linkTokenLength g + 2) / 3 /\
    (forall i c, String.get i s = Some c -> inString c token.encodeURL) /\
    (0 < token.linkTokenLength g -> s <> "").
Proof.
  intros Hn. unfold token.GenerateLinkToken.
  destruct (Z.ltb_spec (token.linkTokenLength g) 0); [lia|].
  cbn [rand_Read]. eexists. split; [reflexivity|].
  set (bytes := map stream (seq 0 (Z.to_nat (token.linkTokenLength g)))).
  assert (Hlen : length bytes = Z.to_nat (token.linkTokenLength g)).
  { unfold bytes. by rewrite length_map, length_seq. }
  split; [|split].
  - rewrite EncodeToString_length, Hlen.
    rewrite Nat2Z.inj_div. f_equal. lia.
  - intros i c. apply EncodeToString_alphabet.
  - intros Hpos. apply EncodeToString_nonempty.
    intros Hnil. rewrite Hnil in Hlen. simpl in Hlen. lia.
Qed.

Lemma GenerateLinkToken_spec_witness :
  exists s,
    token.GenerateLinkToken token.NewGenerator (SrcBytes (fun _ => x2a)) = Ok s /\
    Z.of_nat (String.length s) = 43.
Proof.
  destruct (GenerateLinkToken_spec token.NewGenerator (fun _ => x2a))
    as (s & Hs & Hlen & _).
  - vm_compute. discriminate.
  - exists s. split; [exact Hs|]. rewrite Hlen. reflexivity.
Defined.


Lemma string_get_lookup (s : string) (i : nat) :
  String.get i s = list_ascii_of_string s !! i.
Proof.
  revert i. induction s as [|a s IH]; intros [|i]; simpl; auto.
Qed.

Lemma encodeURL_NoDup : NoDup (list_ascii_of_string token.encodeURL).
Proof. apply (bool_decide_unpack (NoDup (list_ascii_of_string token.encodeURL))). vm_compute. exact I. Qed.

Lemma land63_lt (v : N) : (N.to_nat (N.land v 63) < String.length token.encodeURL)%nat.
Proof.
  change 63%N with (N.ones 6). rewrite N.land_ones.
  pose proof (N.mod_upper_bound v (2 ^ 6) ltac:(done)) as Hm.
  change (String.length token.encodeURL) with 64%nat.
  change (2 ^ 6)%N with 64%N in *. lia.
Qed.

Lemma b64char_inj (v w : N) :
  token.b64char v = token.b64char w -> N.land v 63 = N.land w 63.
Proof.
  unfold token.b64char.
  destruct (string_get_length _ _ (land63_lt v)) as [c Hc].
  destruct (string_get_length _ _ (land63_lt w)) as [d Hd].
  rewrite Hc, Hd. intros <-.
  rewrite string_get_lookup in Hc, Hd.
  apply N2Nat.inj. exact (NoDup_lookup _ _ _ _ encodeURL_NoDup Hc Hd).
Qed.

Lemma lor_shiftl_add (a b : N) (k : N) :
  (b < 2 ^ k)%N -> N.lor (N.shiftl a k) b = (a * 2 ^ k + b)%N.
Proof.
  intros Hb. rewrite N.shiftl_mul_pow2.
  assert (Hland : N.land (a * 2 ^ k) b = 0%N).
  { apply N.bits_inj_0. intros n. rewrite N.land_spec.
    destruct (N.lt_ge_cases n k) as [Hn|Hn].
    - by rewrite N.mul_pow2_bits_low.
    - destruct (N.eq_dec b 0%N) as [->|Hb0].
      + by rewrite N.bits_0, andb_false_r.
      + rewrite (N.bits_above_log2 b n), andb_false_r; [done|].
        apply N.lt_le_trans with k; [|done]. apply N.log2_lt_pow2; lia. }
  by rewrite <- N.lxor_lor, <- N.add_nocarry_lxor.
Qed.

Lemma byte_to_N_lt (b : byte) : (Byte.to_N b < 256)%N.
Proof. pose proof (Byte.to_N_bounded b). lia. Qed.

Lemma byte_to_N_inj (b b' : byte) : Byte.to_N b = Byte.to_N b' -> b = b'.
Proof.
  intros Heq. pose proof (Byte.of_to_N b) as H1. pose proof (Byte.of_to_N b') as H2.
  rewrite Heq in H1. congruence.
Qed.

Lemma sextet (v k : N) : N.land (N.shiftr v k) 63 = ((v / 2 ^ k) mod 64)%N.
Proof. change 63%N with (N.ones 6). by rewrite N.land_ones, N.shiftr_div_pow2. Qed.

Lemma pack2 (b0 b1 : byte) :
  N.lor (N.shiftl (Byte.to_N b0) 16) (N.shiftl (Byte.to_N b1) 8)
  = (Byte.to_N b0 * 65536 + Byte.to_N b1 * 256)%N.
Proof.
  pose proof (byte_to_N_lt b1).
  rewrite lor_shiftl_add; rewrite N.shiftl_mul_pow2;
    change (2 ^ 16)%N with 65536%N; change (2 ^ 8)%N with 256%N; lia.
Qed.

Lemma pack3 (b0 b1 b2 : byte) :
  N.lor (N.lor (N.shiftl (Byte.to_N b0) 16) (N.shiftl (Byte.to_N b1) 8)) (Byte.to_N b2)
  = (Byte.to_N b0 * 65536 + Byte.to_N b1 * 256 + Byte.to_N b2)%N.
Proof.
  pose proof (byte_to_N_lt b2).
  rewrite pack2.
  replace (Byte.to_N b0 * 65536 + Byte.to_N b1 * 256)%N
    with (N.shiftl (Byte.to_N b0 * 256 + Byte.to_N b1) 8)
    by (rewrite N.shiftl_mul_pow2; change (2 ^ 8)%N with 256%N; lia).
  rewrite lor_shiftl_add by (change (2 ^ 8)%N with 256%N; lia).
  rewrite N.shiftl_mul_pow2. change (2 ^ 8)%N with 256%N. lia.
Qed.

Lemma step64 (x y : N) : (x / 64 = y / 64 -> x mod 64 = y mod 64 -> x = y)%N.
Proof.
  intros H1 H2. rewrite (N.div_mod x 64), (N.div_mod y 64) by discriminate.
  congruence.
Qed.

Lemma sextets_eq (v w : N) :
  (v < 2 ^ 24 -> w < 2 ^ 24 ->
   (v / 2 ^ 18) mod 64 = (w / 2 ^ 18) mod 64 ->
   (v / 2 ^ 12) mod 64 = (w / 2 ^ 12) mod 64 ->
   (v / 2 ^ 6) mod 64 = (w / 2 ^ 6) mod 64 ->
   v mod 64 = w mod 64 -> v = w)%N.
Proof.
  intros Hv Hw H1 H2 H3 H4.
  apply step64; [|exact H4].
  change (2 ^ 6)%N with 64%N in H3.
  apply step64; [|exact H3].
  rewrite !N.Div0.div_div. change (64 * 64)%N with (2 ^ 12)%N.
  apply step64; [|exact H2].
  rewrite !N.Div0.div_div. change (2 ^ 12 * 64)%N with (2 ^ 18)%N.
  rewrite !N.mod_small in H1; [exact H1|..];
    apply N.Div0.div_lt_upper_bound; assumption.
Qed.

Lemma mod64_mul (x : N) : ((x * 64) mod 64 = 0)%N.
Proof. apply N.Div0.mod_mul. Qed.

(** X20.  The encoding of link tokens loses nothing: two byte sequences
    with the same [EncodeToString] are equal, so distinct outputs of the
    entropy source give distinct link tokens. *)
Theorem EncodeToString_inj (bs bs' : list byte) :
  token.EncodeToString bs = token.EncodeToString bs' -> bs = bs'.
Proof.
  revert bs'.
  induction bs as [|a|a b|a b c l IH] using list_ind3;
    intros [|a' [|b' [|c' l']]]; cbn [token.EncodeToString]; try done;
    try (intros [= _ _ ?]; done).
  - intros [= H1 H2]. apply b64char_inj in H1, H2. rewrite !sextet in H1, H2.
    rewrite !N.shiftl_mul_pow2 in H1, H2.
    pose proof (byte_to_N_lt a). pose proof (byte_to_N_lt a').
    change (2 ^ 16)%N with 65536%N in *.
    assert (Hv : (Byte.to_N a * 65536 = Byte.to_N a' * 65536)%N).
    { apply sextets_eq; [change (2 ^ 24)%N with 16777216%N; lia..|exact H1|exact H2| |].
      - replace (Byte.to_N a * 65536)%N with (Byte.to_N a * 16 * 64 * 2 ^ 6)%N
          by (change (2 ^ 6)%N with 64%N; lia).
        replace (Byte.to_N a' * 65536)%N with (Byte.to_N a' * 16 * 64 * 2 ^ 6)%N
          by (change (2 ^ 6)%N with 64%N; lia).
        rewrite !N.div_mul by discriminate. by rewrite !mod64_mul.
      - replace (Byte.to_N a * 65536)%N with (Byte.to_N a * 1024 * 64)%N by lia.
        replace (Byte.to_N a' * 65536)%N with (Byte.to_N a' * 1024 * 64)%N by lia.
        by rewrite !mod64_mul. }
    f_equal. apply byte_to_N_inj. lia.
  - intros [= H1 H2 H3]. apply b64char_inj in H1, H2, H3.
    rewrite !sextet, !pack2 in H1, H2, H3.
    pose proof (byte_to_N_lt a). pose proof (byte_to_N_lt a').
    pose proof (byte_to_N_lt b). pose proof (byte_to_N_lt b').
    assert (Hv : (Byte.to_N a * 65536 + Byte.to_N b * 256
                  = Byte.to_N a' * 65536 + Byte.to_N b' * 256)%N).
    { apply sextets_eq;
        [change (2 ^ 24)%N with 16777216%N; lia..|exact H1|exact H2|exact H3|].
      replace (Byte.to_N a * 65536 + Byte.to_N b * 256)%N
        with ((Byte.to_N a * 1024 + Byte.to_N b * 4) * 64)%N by lia.
      replace (Byte.to_N a' * 65536 + Byte.to_N b' * 256)%N
        with ((Byte.to_N a' * 1024 + Byte.to_N b' * 4) * 64)%N by lia.
      by rewrite !mod64_mul. }
    assert (Byte.to_N a = Byte.to_N a' /\ Byte.to_N b = Byte.to_N b') as [Ha Hb] by lia.
    apply byte_to_N_inj in Ha, Hb. by subst.
  - intros [= H1 H2 H3 H4 Hl]. apply b64char_inj in H1, H2, H3, H4.
    rewrite !sextet in H1, H2, H3.
    change 63%N with (N.ones 6) in H4. rewrite !N.land_ones in H4.
    change (2 ^ 6)%N with 64%N in H4 at 1 2.
    rewrite !pack3 in H1, H2, H3, H4.
    pose proof (byte_to_N_lt a). pose proof (byte_to_N_lt a').
    pose proof (byte_to_N_lt b). pose proof (byte_to_N_lt b').
    pose proof (byte_to_N_lt c). pose proof (byte_to_N_lt c').
    assert (Hv : (Byte.to_N a * 65536 + Byte.to_N b * 256 + Byte.to_N c
                  = Byte.to_N a' * 65536 + Byte.to_N b' * 256 + Byte.to_N c')%N).
    { apply sextets_eq;
        [change (2 ^ 24)%N with 16777216%N; lia..|exact H1|exact H2|exact H3|exact H4]. }
    assert (Byte.to_N a = Byte.to_N a' /\ Byte.to_N b = Byte.to_N b' /\
            Byte.to_N c = Byte.to_N c') as (Ha & Hb & Hc) by lia.
    apply byte_to_N_inj in Ha, Hb, Hc. apply IH in Hl. by subst.
Qed.

Lemma EncodeToString_inj_witness :
  [x66; x6f; x6f] = [x66; x6f; x6f].
Proof.
  apply (EncodeToString_inj [x66; x6f; x6f] [x66; x6f; x6f]). reflexivity.
Defined.

(** ** The manager: failures and options *)

Lemma memory_Store_error (ctx : Context) (t : option token.Token)
    (s s' : memory.Storage) (e : error) :
  memory.Store ctx t s = (s', Some e) -> s' = s.
Proof.
  unfold memory.Store. destruct (ctx_Err ctx); [by intros [= <- _]|].
  destruct (token.Validate t), t; by intros [= <-].
Qed.

(** X21.  On the in-memory backend [createToken] is all or nothing: when
    it returns no token (an error or a panic of the generator) the manager
    and its storage are as before the call.  A generator configured with
    length zero makes every creation of that kind fail at [Store] with an
    error that wraps [ErrEmptyTokenValue]. *)
Theorem createToken_failure_memory (m m' : token.Manager memory.Storage)
    (ctx : Context) (src : Source) (now now' : time.Time) (ty : TokenType)
    (o : string) (ttl : time.Duration) (r : result token.Token) :
  token.createToken m ctx src now now' ty o ttl = (m', r) ->
  ((forall tok, r <> Ok tok) -> m' = m) /\
  (ctx = Background -> o <> "" -> 0 < ttl -> src <> SrcFail ->
   (ty = token.TypeLink /\ token.linkTokenLength (token.generator m) = 0) \/
   (ty = token.TypeCode /\ token.codeTokenLength (token.generator m) = 0) ->
   exists e, r = Err e /\ errors_Is e ErrEmptyTokenValue = true).
Proof.
  unfold token.createToken.
  destruct (ctx_Err ctx) eqn:Hctx;
    [intros [= <- <-]; split; [done|intros ->; done]|].
  destruct (decide (o = "")); [intros [= <- <-]; split; done|].
  destruct (Z.leb_spec ttl 0); [intros [= <- <-]; split; [done|lia]|].
  assert (Hfin : forall generated,
    match generated with
    | Panic p => (m, Panic p)
    | Err e => (m, Err (Wrap "failed to generate token" e))
    | Ok tokenValue =>
        match token.Store ctx now' (Some (token.New tokenValue ty o ttl now))
                (token.storage m) with
        | (s', Some err) => (token.withStorage m s', Err (Wrap "failed to store token" err))
        | (s', None) => (token.withStorage m s', Ok (token.New tokenValue ty o ttl now))
        end
    end = (m', r) ->
    ((forall tok, r <> Ok tok) -> m' = m) /\
    (generated = Ok "" -> exists e, r = Err e /\ errors_Is e ErrEmptyTokenValue = true)).
  { intros [v|e|p]; [|intros [= <- <-]; split; done..].
    change (token.Store ctx now' (Some (token.New v ty o ttl now)) (token.storage m))
      with (memory.Store ctx (Some (token.New v ty o ttl now)) (token.storage m)).
    destruct (memory.Store _ _ _) as [s' [err|]] eqn:Hst; intros [= <- <-].
    - pose proof (memory_Store_error _ _ _ _ _ Hst) as ->. split.
      + intros _. apply withStorage_storage.
      + intros [= ->]. revert Hst. unfold memory.Store. rewrite Hctx.
        cbn. intros [= <-]. eexists. split; reflexivity.
    - split; [intros Hno; by destruct (Hno (token.New v ty o ttl now))|].
      intros [= ->]. revert Hst. unfold memory.Store. rewrite Hctx. by cbn. }
  destruct (Z.eqb_spec ty token.TypeLink) as [->|Hl].
  - intros Hr. apply Hfin in Hr as [H1 H2]. split; [exact H1|].
    intros _ _ _ Hsrc [[_ Hlen]|[[=] _]]. apply H2.
    unfold token.GenerateLinkToken. rewrite Hlen. destruct src; done.
  - destruct (Z.eqb_spec ty token.TypeCode) as [->|Hc].
    + intros Hr. apply Hfin in Hr as [H1 H2]. split; [exact H1|].
      intros _ _ _ Hsrc [[[=] _]|[_ Hlen]]. apply H2.
      unfold token.GenerateCodeToken. rewrite Hlen. destruct src; done.
    + intros [= <- <-]. split; [done|]. intros _ _ _ _ [[? _]|[? _]]; done.
Qed.

Lemma createToken_failure_memory_witness :
  let g := token.WithLinkTokenLength token.NewGenerator 0 in
  let m := token.NewManager memory.New [token.WithGenerator g] in
  exists e,
    token.CreateLinkToken m Background (SrcBytes (fun _ => x2a)) 1000 1001 "val-1"
    = (m, Err e) /\
    errors_Is e ErrEmptyTokenValue = true.
Proof.
  intros g m.
  destruct (token.CreateLinkToken m Background (SrcBytes (fun _ => x2a)) 1000 1001 "val-1")
    as [m' r] eqn:Hc.
  destruct (createToken_failure_memory m m' Background (SrcBytes (fun _ => x2a))
              1000 1001 token.TypeLink "val-1" (token.linkTokenTTL m) r Hc)
    as [Hsame Hzero].
  destruct Hzero as (e & -> & He); [done|done|done|done|by left|].
  rewrite Hsame by done. by exists e.
Defined.

(** X22.  The method [ValidateToken] accepts exactly the tokens that
    [Validate] accepts; its errors are new values, matched by [errors.Is]
    against none of the seven sentinel errors of the package, while every
    error of [Validate] is matched against [ErrTokenNil],
    [ErrEmptyTokenValue], [ErrEmptyValidationID] or [ErrInvalidToken]. *)
Theorem ValidateToken_Validate (t : option token.Token) :
  (token.ValidateToken t = None <-> token.Validate t = None) /\
  (forall e, token.ValidateToken t = Some e ->
     Forall (fun sentinel => errors_Is e sentinel = false)
       [ErrTokenNotFound; ErrInvalidToken; ErrInvalidTokenType;
        ErrInvalidTokenKeyType; ErrTokenNil; ErrEmptyTokenValue;
        ErrEmptyValidationID]) /\
  (forall e, token.Validate t = Some e ->
     Exists (fun sentinel => errors_Is e sentinel = true)
       [ErrTokenNil; ErrEmptyTokenValue; ErrEmptyValidationID; ErrInvalidToken]).
Proof.
  unfold token.ValidateToken, token.Validate.
  destruct t as [t|].
  2:{ split; [done|]. split; intros e [= <-]; [repeat constructor|].
      apply Exists_cons_hd. reflexivity. }
  destruct (decide (token.Value t = "")).
  { split; [done|]. split; intros e' [= <-]; [repeat constructor|].
    apply Exists_cons_tl, Exists_cons_hd. reflexivity. }
  destruct (decide (token.ValidationID t = "")).
  { split; [done|]. split; intros e' [= <-]; [repeat constructor|].
    do 2 apply Exists_cons_tl. apply Exists_cons_hd. reflexivity. }
  destruct (time.IsZero (token.ValidUntil t)); [|done].
  split; [done|]. split; intros e' [= <-]; [repeat constructor|].
  do 3 apply Exists_cons_tl. apply Exists_cons_hd. reflexivity.
Qed.

Lemma fold_applyOption_last_TTL {S} (opts : list (token.ManagerOption S))
    (m : token.Manager S) (d : time.Duration) :
  token.linkTokenTTL (fold_left token.applyOption (opts ++ [token.WithLinkTokenTTL d]) m) = d /\
  token.codeTokenTTL (fold_left token.applyOption (opts ++ [token.WithCodeTokenTTL d]) m) = d.
Proof. by rewrite !fold_left_app. Qed.

(** X23.  [NewManager] applies its options in order and checks none of
    them: the last TTL option decides, and after a last
    [WithLinkTokenTTL] (or [WithCodeTokenTTL]) with a duration that is not
    positive every [CreateLinkToken] (or [CreateCodeToken]) with a live
    context and a non-empty validation ID fails before a token is
    generated, leaving the manager unchanged. *)
Theorem NewManager_TTL_option_unchecked {S} `{token.Storage S} (st : S)
    (opts : list (token.ManagerOption S)) (d : time.Duration) (src : Source)
    (now now' : time.Time) (o : string) :
  d <= 0 -> o <> "" ->
  let ml := token.NewManager st (opts ++ [token.WithLinkTokenTTL d]) in
  let mc := token.NewManager st (opts ++ [token.WithCodeTokenTTL d]) in
  token.linkTokenTTL ml = d /\ token.codeTokenTTL mc = d /\
  token.CreateLinkToken ml Background src now now' o
  = (ml, Err (Errorf "invalid TTL: must be positive duration")) /\
  token.CreateCodeToken mc Background src now now' o
  = (mc, Err (Errorf "invalid TTL: must be positive duration")).
Proof.
  intros Hd Ho ml mc.
  destruct (fold_applyOption_last_TTL opts
              {| token.generator := token.NewGenerator; token.storage := st;
                 token.linkTokenTTL := 24 * time.Hour;
                 token.codeTokenTTL := 10 * time.Minute |} d) as [Hl Hc].
  fold (token.NewManager st (opts ++ [token.WithLinkTokenTTL d])) in Hl.
  fold (token.NewManager st (opts ++ [token.WithCodeTokenTTL d])) in Hc.
  fold ml in Hl. fold mc in Hc.
  split; [exact Hl|]. split; [exact Hc|].
  unfold token.CreateLinkToken, token.CreateCodeToken, token.createToken.
  cbn [ctx_Err]. rewrite !decide_False by done. rewrite Hl, Hc.
  destruct (Z.leb_spec d 0); [done|lia].
Qed.

Lemma NewManager_TTL_option_unchecked_witness :
  let m := token.NewManager memory.New
             [token.WithLinkTokenTTL (2 * time.Hour); token.WithLinkTokenTTL 0] in
  token.CreateLinkToken m Background (SrcBytes (fun _ => x2a)) 1000 1001 "val-1"
  = (m, Err (Errorf "invalid TTL: must be positive duration")).
Proof.
  intros m.
  apply (NewManager_TTL_option_unchecked memory.New
           [token.WithLinkTokenTTL (2 * time.Hour)] 0
           (SrcBytes (fun _ => x2a)) 1000 1001 "val-1").
  - lia.
  - discriminate.
Defined.

#[local] Existing Instance idealJSON.


Lemma Store_rejects_invalid_witness :
  let t := {| token.Value := "abc"; token.Typ := token.TypeLink;
              token.CreatedAt := 1000; token.ValidUntil := 2000;
              token.ValidationID := "val-1" |} in
  exists e,
    redis.Store Background 3000 (Some t) ∅ = (∅, Some e) /\
    errors_Is e ErrInvalidToken = true.
Proof.
  intros t.
  destruct (Store_rejects_invalid 3000 t memory.New ∅) as (_ & _ & _ & Hpast & _).
  destruct Hpast as (e & He & Hk).
  - simpl. lia.
  - exists e. split; [exact He|]. apply Hk.
    + discriminate.
    + discriminate.
    + by eexists.
Defined.



(** C6.  At the failing input: [MemoryStorage.DeleteByValidationID] of
    storage.go called with the empty validation ID returns no error; the
    store is unchanged.  The same call fails with [ErrEmptyValidationID],
    the store unchanged, on [memory.Storage], [redis.Storage] and
    [RedisStorage]. *)
Theorem MemoryStorage_DeleteByValidationID_empty :
  MemoryStorage.DeleteByValidationID Background "" MemoryStorage.NewMemoryStorage
    = (MemoryStorage.NewMemoryStorage, None) /\
  memory.DeleteByValidationID Background "" memory.New
    = (memory.New, Some ErrEmptyValidationID) /\
  redis.DeleteByValidationID Background 1000 "" ∅
    = (∅, Some ErrEmptyValidationID) /\
  RedisStorage.DeleteByValidationID Background 1000 "" ∅
    = (∅, Some ErrEmptyValidationID).
Proof. repeat split; reflexivity. Qed.

(** Outside that window the backends differ.  A token retrieved after its [ValidUntil] is expired for the
    in-memory storage and evicted, hence not found, on the server. *)
Example expired_retrieval_differs :
  let sec := 1000000000 in
  let t := {| token.Value := "abc"; token.Typ := token.TypeLink;
              token.CreatedAt := sec; token.ValidUntil := 10 * sec;
              token.ValidationID := "val-1" |} in
  let calls := [CallStore Background sec (Some t);
                CallRetrieve Background (11 * sec) "abc" token.TypeLink] in
  observe <$> snd (run calls memory.New) = [Succeeded; Failed Expired] /\
  observe <$> snd (run calls (∅ : gmap string goredis.entry))
    = [Succeeded; Failed NotFound].
Proof. vm_compute. split; reflexivity. Qed.

(** A token that expires within the current second: [ExpireAt] carries
    whole seconds, the index key is dropped at once and
    [DeleteByValidationID] no longer reaches the token on the server. *)
Example sub_second_ttl_differs :
  let sec := 1000000000 in
  let t := {| token.Value := "abc"; token.Typ := token.TypeLink;
              token.CreatedAt := sec; token.ValidUntil := sec + 500000000;
              token.ValidationID := "val-1" |} in
  let calls := [CallStore Background (sec + 1) (Some t);
                CallDeleteByValidationID Background (sec + 2) "val-1";
                CallRetrieve Background (sec + 3) "abc" token.TypeLink] in
  observe <$> snd (run calls memory.New) = [Succeeded; Succeeded; Failed NotFound] /\
  observe <$> snd (run calls (∅ : gmap string goredis.entry))
    = [Succeeded; Succeeded; Token t].
Proof. vm_compute. split; reflexivity. Qed.

(** ** The Redis-backed storages on concrete inputs *)


Lemma redis_Delete_removes_witness :
  let sec := 1000000000 in
  let t := {| token.Value := "abc"; token.Typ := token.TypeLink;
              token.CreatedAt := sec; token.ValidUntil := 10 * sec;
              token.ValidationID := "val-1" |} in
  let db1 := fst (redis.Store Background sec (Some t) ∅) in
  let db2 := fst (redis.Delete Background (2 * sec) "abc" token.TypeLink db1) in
  redis.Retrieve Background (2 * sec) "abc" token.TypeLink db1 = (db1, Ok t) /\
  redis.Retrieve Background (3 * sec) "abc" token.TypeLink db2
  = (db2, Err ErrTokenNotFound).
Proof.
  intros sec t db1 db2.
  split; [vm_compute; reflexivity|].
  apply (redis_Delete_removes db1 db2 (2 * sec) (3 * sec) "abc" token.TypeLink).
  - vm_compute. reflexivity.
  - vm_compute. discriminate.
Defined.


Lemma RedisStorage_Store_not_after_witness :
  let t := {| token.Value := "abc"; token.Typ := token.TypeLink;
              token.CreatedAt := 1000; token.ValidUntil := 2000;
              token.ValidationID := "val-1" |} in
  exists e,
    RedisStorage.Store Background 2000 (Some t) ∅ = (∅, Some e) /\
    e = ErrInvalidToken.
Proof.
  intros t.
  destruct (RedisStorage_Store_not_after 2000 t ∅) as (e & He & Hk).
  - simpl. lia.
  - exists e. split; [exact He|]. apply Hk.
    + discriminate.
    + discriminate.
    + by eexists.
Defined.

Lemma MemoryStorage_Store_valid_witness :
  let t := {| token.Value := "abc"; token.Typ := token.TypeLink;
              token.CreatedAt := 1000; token.ValidUntil := 0;
              token.ValidationID := "val-1" |} in
  exists s',
    MemoryStorage.Store Background (Some t) MemoryStorage.NewMemoryStorage = (s', None) /\
    MemoryStorage.tokens s' !! TokenKey "abc" token.TypeLink = Some t.
Proof.
  intros t.
  apply (MemoryStorage_Store_valid t MemoryStorage.NewMemoryStorage); discriminate.
Defined.

(** ** Evaluation on concrete inputs *)

Example EncodeToString_foobar :
  token.EncodeToString ["f"; "o"; "o"; "b"; "a"]%byte = "Zm9vYmE".
Proof. reflexivity. Qed.

Example GenerateCodeToken_default :
  token.GenerateCodeToken token.NewGenerator
    (SrcBytes (fun i => match i with O => x00 | 1%nat => xff | 2%nat => x0a | _ => x17 end))
  = Ok "0503".
Proof. reflexivity. Qed.

Example tokenKeyOf_code : redis.tokenKeyOf "1234" token.TypeCode = "token:1234:1".
Proof. reflexivity. Qed.

Example kindOf_empty_value :
  kindOf (Wrap "token validation failed" ErrEmptyTokenValue) = EmptyValue /\
  kindOf (Wrap "token validation failed" ErrEmptyValidationID) = EmptyOwner /\
  kindOf (Wrap "token validation failed" (Wrap "missing expiration time" ErrInvalidToken))
  = InvalidToken.
Proof. repeat split; reflexivity. Qed.
